(** * rt-bot: the per-guild music player ([cogs/music/music_player.py])

    A shallow embedding of the [MusicPlayer] class and the properties of
    its queue: capacity, removal, the completion callback [_after],
    [play], [pause], [clear], [shuffle] and [check_timeout].

    Python objects that the player only calls into (the discord voice
    client, the text channel, the source resolver, the [random] module)
    are interfaces here; calls whose effect lives outside the player
    (methods of a [MusicData], [print], [channel.send], [create_task])
    are recorded as events, in program order. *)

From Stdlib Require Import ZArith Ascii String PrimFloat Uint63.
From stdpp Require Import base list strings gmap pretty.

Set Default Proof Using "Type".
Local Open Scope Z_scope.

(* ================================================================== *)
(** ** Python values and control flow *)

(** The exceptions the player raises or handles. [OtherError] stands for
    any exception of a collaborator that is not a
    [discord.ClientException]. *)
Inductive exn :=
| OverflowError (msg : string)
| IndexError
| ValueError
| NameError (name : string)
| TypeError
| ClientException
| OtherError (what : string).

Inductive result (A : Type) :=
| Ok (a : A)
| Raise (e : exn).
Arguments Ok {A} a.
Arguments Raise {A} e.

(** [except discord.ClientException] *)
Definition is_ClientException (e : exn) : bool :=
  match e with ClientException => true | _ => false end.

(** A list index as Python reads it: a negative index counts from the
    end, and anything outside [-n, n) is an [IndexError]. *)
Definition py_index (n : nat) (i : Z) : option nat :=
  let k := if i <? 0 then i + Z.of_nat n else i in
  if (0 <=? k) && (k <? Z.of_nat n) then Some (Z.to_nat k) else None.

(** [l[i]] *)
Definition py_getitem {A} (l : list A) (i : Z) : result A :=
  match py_index (List.length l) i with
  | Some k => match l !! k with Some x => Ok x | None => Raise IndexError end
  | None => Raise IndexError
  end.

(** [del l[i]] *)
Definition py_del {A} (l : list A) (i : Z) : result (list A) :=
  match py_index (List.length l) i with
  | Some k => Ok (delete k l)
  | None => Raise IndexError
  end.

(** [l.remove(x)]: the first item equal to [x] goes; [ValueError] when
    there is none. *)
Fixpoint list_remove `{EqDecision A} (x : A) (l : list A) : option (list A) :=
  match l with
  | [] => None
  | y :: l' => if decide (y = x) then Some l' else cons y <$> list_remove x l'
  end.

Definition py_remove `{EqDecision A} (l : list A) (x : A) : result (list A) :=
  match list_remove x l with
  | Some l' => Ok l'
  | None => Raise ValueError
  end.

(** [s.replace(old, new)] for a pattern [old] of one character, which is
    how the player calls it. *)
Fixpoint str_replace1 (old : ascii) (new : string) (s : string) : string :=
  match s with
  | EmptyString => EmptyString
  | String c s' =>
      if Ascii.eqb c old then new +:+ str_replace1 old new s'
      else String c (str_replace1 old new s')
  end.

(** Substring test, to say what a message names. *)
Fixpoint is_prefix (p s : string) : bool :=
  match p, s with
  | EmptyString, _ => true
  | String a p', String b s' => Ascii.eqb a b && is_prefix p' s'
  | String _ _, EmptyString => false
  end.

Fixpoint is_substring (p s : string) : bool :=
  is_prefix p s ||
  match s with
  | EmptyString => false
  | String _ s' => is_substring p s'
  end.

(** The integers every one of which is a float: [|z| <= 2^53]. *)
Definition exact_int (z : Z) : Prop :=
  -9007199254740992 <= z <= 9007199254740992.

(** An [int] used where a float is expected. The conversion is exact
    for [|z| <= 2^53]; above that it rounds, and it wraps at [2^63],
    where Python compares the float with the [int] exactly. The
    statements about [check_timeout] keep the threshold in the exact
    range, [exact_int]. *)
Definition float_of_int (z : Z) : float :=
  if z <? 0 then PrimFloat.opp (PrimFloat.of_uint63 (Uint63.of_Z (- z)))
  else PrimFloat.of_uint63 (Uint63.of_Z z).

(* ================================================================== *)
(** ** [random.shuffle] *)

(** The generator behind [random]: [randbelow n] draws from [0, n). *)
Class RandomGen (G : Type) := {
  randbelow : nat -> G -> nat * G;
  randbelow_lt : forall n g, (0 < n)%nat -> ((randbelow n g).1 < n)%nat
}.

(** [x[i], x[j] = x[j], x[i]] *)
Definition swap {A} (x : list A) (i j : nat) : list A :=
  match x !! i, x !! j with
  | Some a, Some b => <[j:=a]> (<[i:=b]> x)
  | _, _ => x
  end.

(** The loop of [random.shuffle]:
    [for i in reversed(range(1, len(x))): j = randbelow(i + 1); swap]. *)
Fixpoint shuffle_from `{RandomGen G} {A} (i : nat) (x : list A) (g : G)
  : list A * G :=
  match i with
  | O => (x, g)
  | S i' =>
      let '(j, g') := randbelow (S i) g in
      shuffle_from i' (swap x i j) g'
  end.

Definition random_shuffle `{RandomGen G} {A} (x : list A) (g : G) : list A * G :=
  shuffle_from (List.length x - 1)%nat x g.

(** A generator that replays a list of draws, for concrete runs. *)
Definition replay_randbelow (n : nat) (g : list nat) : nat * list nat :=
  match g with
  | [] => (O, [])
  | d :: g' => ((d mod n)%nat, g')
  end.

(* ================================================================== *)
(** ** Collaborators *)

(** A queued track. [ident] is the object's identity: Python compares
    [MusicData] objects by identity, and two records with the same
    [ident] are the same object. *)
Record MusicData := {
  ident : nat;
  title : string;
  url : string;
  thumbnail : string
}.

#[global] Instance MusicData_eq_dec : EqDecision MusicData.
Proof. solve_decision. Defined.

(** What the event loop is asked to run: [self._after(e)]. *)
Inductive task := AfterTask (e : option exn).

(** The [after=] argument of [voice_client.play]. *)
Definition callback := option exn -> task.

(** [lambda e: self.cog.bot.loop.create_task(self._after(e))] *)
Definition after_callback : callback := fun e => AfterTask e.

(** [discord.VoiceClient], as far as the player uses it. *)
Class VoiceClient (Source V : Type) := {
  is_playing : V -> bool;
  is_paused : V -> bool;
  vc_play : V -> Source -> callback -> result V;
  vc_stop : V -> V;
  vc_pause : V -> V;
  vc_resume : V -> V
}.

(** Calls whose effect is outside the player. *)
Inductive event :=
| SetMakeGetSource (m : MusicData)
| Started (m : MusicData)
| Stopped (m : MusicData)
| Closed (m : MusicData)
| Print (e : exn)
| Send (text : string)
| CreateTask (t : task).

(** [self.before]: a number, or (line 103) the function [time] itself. *)
Inductive stamp :=
| Num (t : float)
| TimeFunction.

(* ================================================================== *)
(** ** Methods as state transformers *)

(** A method body: it reads and updates [self], may raise, and leaves a
    trace of events. A raise keeps the updates made before it. *)
Section Effects.
Context {S : Type}.

Definition M (A : Type) : Type := S -> result A * S * list event.

Definition ret {A} (a : A) : M A := fun s => (Ok a, s, []).

Definition raise {A} (e : exn) : M A := fun s => (Raise e, s, []).

Definition bind {A B} (c : M A) (k : A -> M B) : M B := fun s =>
  match c s with
  | (Ok a, s1, ev1) => let '(r, s2, ev2) := k a s1 in (r, s2, ev1 ++ ev2)
  | (Raise e, s1, ev1) => (Raise e, s1, ev1)
  end.

(** [try: c except Exception as e: h e] *)
Definition try_except {A} (c : M A) (h : exn -> M A) : M A := fun s =>
  match c s with
  | (Ok a, s1, ev1) => (Ok a, s1, ev1)
  | (Raise e, s1, ev1) => let '(r, s2, ev2) := h e s1 in (r, s2, ev1 ++ ev2)
  end.

Definition gets {A} (f : S -> A) : M A := fun s => (Ok (f s), s, []).
Definition modify (f : S -> S) : M unit := fun s => (Ok tt, f s, []).
Definition emit (ev : event) : M unit := fun s => (Ok tt, s, [ev]).
Definition lift {A} (r : result A) : M A := fun s => (r, s, []).

(** A name read in a function body: found among the locals, or a
    [NameError] (the module's globals and the builtins hold no track). *)
Definition load_name (locals : list (string * MusicData)) (name : string)
  : M MusicData :=
  match List.find (fun b => String.eqb b.1 name) locals with
  | Some b => ret b.2
  | None => raise (NameError name)
  end.
End Effects.
Arguments M S A : clear implicits.

Declare Scope py_scope.
Delimit Scope py_scope with py.
Notation "x <- c ;; k" := (bind c (fun x => k))
  (at level 100, c at next level, right associativity) : py_scope.
Notation "c ;; k" := (bind c (fun _ => k))
  (at level 100, right associativity) : py_scope.

(** The text sent when the next track cannot be played. The literal of
    line 63 is a plain string (it has no [f] prefix), so the braces are
    part of the text. *)
Definition error_literal : string :=
  "何らかのエラーにより`{self.queues[0].title}`が再生ができませんでした。".

Definition error_text : string := str_replace1 "@"%char "＠" error_literal.

Module MusicPlayer.

Record t (V : Type) := mk {
  voice_client : V;
  queues : list MusicData;
  length : Z;
  _loop : bool;
  before : stamp
}.
Arguments mk {V}.
Arguments voice_client {V}.
Arguments queues {V}.
Arguments length {V}.
Arguments _loop {V}.
Arguments before {V}.

Definition MAX : Z := 800.

Section Player.
Context {Source V : Type} `{!VoiceClient Source V}.
(** The outcome of [await queue.get_source()]. *)
Variable get_source : MusicData -> result Source.

Local Open Scope py_scope.

Definition set_voice_client (v : V) (s : t V) : t V :=
  mk v (queues s) (length s) (_loop s) (before s).
Definition set_queues (q : list MusicData) (s : t V) : t V :=
  mk (voice_client s) q (length s) (_loop s) (before s).
Definition set_length (n : Z) (s : t V) : t V :=
  mk (voice_client s) (queues s) n (_loop s) (before s).
Definition set_loop (b : bool) (s : t V) : t V :=
  mk (voice_client s) (queues s) (length s) b (before s).
Definition set_before (b : stamp) (s : t V) : t V :=
  mk (voice_client s) (queues s) (length s) (_loop s) b.

(** [__init__] *)
Definition init (vc : V) : t V := mk vc [] 0 false (Num 0%float).

Definition add_queue (music : MusicData) : M (t V) unit :=
  emit (SetMakeGetSource music) ;;
  len <- gets length ;;
  if len =? MAX then raise (OverflowError "追加しすぎです。")
  else
    qs <- gets queues ;;
    modify (set_queues (qs ++ [music])) ;;
    len <- gets length ;;
    modify (set_length (len + 1)).

Definition remove_queue (index : Z + MusicData) : M (t V) unit :=
  match index with
  | inl i =>
      qs <- gets queues ;;
      qs' <- lift (py_del qs i) ;;
      modify (set_queues qs')
  | inr m =>
      qs <- gets queues ;;
      qs' <- lift (py_remove qs m) ;;
      modify (set_queues qs')
  end ;;
  len <- gets length ;;
  modify (set_length (len - 1)).

Definition read_queue (index : Z) : M (t V) MusicData :=
  qs <- gets queues ;;
  lift (py_getitem qs index).

Definition play : M (t V) bool :=
  qs <- gets queues ;;
  vc <- gets voice_client ;;
  if bool_decide (qs <> []) && negb (is_playing vc) then
    queue <- lift (py_getitem qs 0) ;;
    emit (Started queue) ;;
    modify (set_before (Num 0%float)) ;;
    returned <-
      try_except
        (src <- lift (get_source queue) ;;
         vc <- gets voice_client ;;
         vc' <- lift (vc_play vc src after_callback) ;;
         modify (set_voice_client vc') ;;
         ret None)
        (fun e => if is_ClientException e then ret (Some false)
                  else raise e) ;;
    match returned with
    | Some b => ret b
    | None => ret true
    end
  else ret false.

Definition _after (e : option exn) : M (t V) unit :=
  qs <- gets queues ;;
  head <- lift (py_getitem qs 0) ;;
  emit (Closed head) ;;
  match e with
  | Some err => emit (Print err)
  | None => ret tt
  end ;;
  looping <- gets _loop ;;
  (if negb looping then remove_queue (inl 0) else ret tt) ;;
  try_except
    (play ;; ret tt)
    (fun _ =>
       emit (Send error_text) ;;
       emit (CreateTask (AfterTask None))).

Definition clear : M (t V) unit :=
  qs <- gets queues ;;
  modify (set_queues (take 1 qs)).

Definition skip (now : float) : M (t V) unit :=
  vc <- gets voice_client ;;
  modify (set_voice_client (vc_stop vc)) ;;
  modify (set_before (Num now)).

(** [queue] is bound nowhere in [pause]: not a parameter, not
    assigned in the body, not a name of the module. *)
Definition pause : M (t V) bool :=
  vc <- gets voice_client ;;
  if is_paused vc then
    modify (set_voice_client (vc_resume vc)) ;;
    queue <- load_name [] "queue" ;;
    emit (Started queue) ;;
    modify (set_before (Num 0%float)) ;;
    ret true
  else
    modify (set_voice_client (vc_pause vc)) ;;
    queue <- load_name [] "queue" ;;
    emit (Stopped queue) ;;
    modify (set_before TimeFunction) ;;
    ret false.

Definition loop : M (t V) bool :=
  looping <- gets _loop ;;
  modify (set_loop (negb looping)) ;;
  gets _loop.

Definition shuffle `{!RandomGen G} (g : G) : M (t V) G :=
  len <- gets length ;;
  if 1 <? len then
    qs <- gets queues ;;
    let '(queues', g') := random_shuffle (drop 1 qs) g in
    qs <- gets queues ;;
    modify (set_queues (take 1 qs ++ queues')) ;;
    ret g'
  else ret g.

(** [now] is what [time()] returns when it is called. *)
Definition check_timeout (now : float) (t : Z) : M (MusicPlayer.t V) bool :=
  b <- gets before ;;
  match b with
  | Num b =>
      if PrimFloat.eqb b 0 then ret false
      else ret (PrimFloat.ltb (float_of_int t) (PrimFloat.sub now b))
  | TimeFunction => raise TypeError
  end.

(** A run of [add_queue] calls, one per track, in order. *)
Fixpoint add_queue_all (ms : list MusicData) : M (t V) unit :=
  match ms with
  | [] => ret tt
  | m :: ms' => add_queue m ;; add_queue_all ms'
  end.
End Player.
End MusicPlayer.

(* ================================================================== *)
(** ** A voice client and tracks for concrete runs *)

(** A voice client with discord.py's visible behaviour: [play] is
    refused when not connected or while audio is playing. *)
Inductive sink :=
| Idle
| Playing (src : string) (after : callback)
| Paused (src : string) (after : callback)
| Disconnected.

#[global] Instance sink_voice_client : VoiceClient string sink := {
  is_playing v := match v with Playing _ _ => true | _ => false end;
  is_paused v := match v with Paused _ _ => true | _ => false end;
  vc_play v src after :=
    match v with
    | Disconnected | Playing _ _ => Raise ClientException
    | Idle | Paused _ _ => Ok (Playing src after)
    end;
  vc_stop v := match v with Playing _ _ | Paused _ _ => Idle | _ => v end;
  vc_pause v := match v with Playing src cb => Paused src cb | _ => v end;
  vc_resume v := match v with Paused src cb => Playing src cb | _ => v end
}.

#[global] Program Instance replay_gen : RandomGen (list nat) := {
  randbelow := replay_randbelow
}.
Next Obligation.
  intros n [|d g] Hn; simpl; [done|]. apply Nat.mod_upper_bound. lia.
Qed.

Definition song1 : MusicData :=
  {| ident := 1; title := "Song1"; url := "https://example.org/1";
     thumbnail := "https://example.org/1.png" |}.
Definition song2 : MusicData :=
  {| ident := 2; title := "Song2"; url := "https://example.org/2";
     thumbnail := "https://example.org/2.png" |}.
Definition song3 : MusicData :=
  {| ident := 3; title := "Song3"; url := "https://example.org/3";
     thumbnail := "https://example.org/3.png" |}.

(** Every track resolves to a stream named by its URL. *)
Definition resolve_all (m : MusicData) : result string := Ok (url m).

(** The resolver fails on [song2]. *)
Definition resolve_but_song2 (m : MusicData) : result string :=
  if decide (m = song2) then Raise (OtherError "DownloadError") else Ok (url m).

(** The message the specification describes: it names the title of the
    track that could not be played. *)
Definition error_message_spec (m : MusicData) : string :=
  str_replace1 "@"%char "＠"
    ("何らかのエラーにより`" +:+ title m +:+ "`が再生ができませんでした。").

(** The invariant of the specification: the counter is the number of
    entries. *)
Definition length_consistent {V} (s : MusicPlayer.t V) : Prop :=
  MusicPlayer.length s = Z.of_nat (List.length (MusicPlayer.queues s)).

(** The three parts of a run. *)
Definition value_of {S A} (r : result A * S * list event) : result A := r.1.1.
Definition state_of {S A} (r : result A * S * list event) : S := r.1.2.
Definition events_of {S A} (r : result A * S * list event) : list event := r.2.

(** A run with [evs] emitted before it. *)
Definition with_events {S A} (evs : list event) (r : result A * S * list event)
  : result A * S * list event :=
  let '(v, s, ev) := r in (v, s, evs ++ ev).

(** [print("Error on Music:", e)] under [if e:]. *)
Definition print_events (e : option exn) : list event :=
  match e with
  | Some err => [Print err]
  | None => []
  end.

(** The player when [_after] reaches its [try]: the head entry is gone
    unless the loop flag is set. *)
Definition before_retry {V} (s : MusicPlayer.t V) : MusicPlayer.t V :=
  if MusicPlayer._loop s then s
  else MusicPlayer.set_length (MusicPlayer.length s - 1)
         (MusicPlayer.set_queues (drop 1 (MusicPlayer.queues s)) s).

(** When [remove_queue] has nothing to remove. *)
Definition remove_fails {V} (index : Z + MusicData) (s : MusicPlayer.t V) : Prop :=
  match index with
  | inl i =>
      ~ (- Z.of_nat (List.length (MusicPlayer.queues s)) <= i
         < Z.of_nat (List.length (MusicPlayer.queues s)))
  | inr m => m ∉ MusicPlayer.queues s
  end.

Definition remove_error (index : Z + MusicData) : exn :=
  match index with
  | inl _ => IndexError
  | inr _ => ValueError
  end.

#[global] Instance remove_fails_dec {V} index (s : MusicPlayer.t V) :
  Decision (remove_fails index s).
Proof. destruct index; simpl; apply _. Defined.

(** A queue of two tracks with a consistent counter, nothing playing. *)
Definition two_tracks : MusicPlayer.t sink :=
  MusicPlayer.mk Idle [song1; song2] 2 false (Num 0%float).

(** Three tracks whose first one has just finished: the voice client is
    idle again when the completion callback runs. *)
Definition three_tracks (looping : bool) : MusicPlayer.t sink :=
  MusicPlayer.mk Idle [song1; song2; song3] 3 looping (Num 0%float).

(** One track, skipped at time 1000 (seconds). *)
Definition skipped_at_1000 : MusicPlayer.t sink :=
  MusicPlayer.mk Idle [song1] 1 false (Num 1000%float).

(** What [play] does once it has decided to start the head entry:
    the entry is marked started and the timestamp reset before the
    source is resolved and handed to the voice client. *)
Definition play_started {Source V} `{!VoiceClient Source V}
    (get_source : MusicData -> result Source)
    (h : MusicData) (s : MusicPlayer.t V)
  : result bool * MusicPlayer.t V * list event :=
  let s1 := MusicPlayer.set_before (Num 0%float) s in
  match get_source h with
  | Ok src =>
      match vc_play (MusicPlayer.voice_client s) src after_callback with
      | Ok vc' => (Ok true, MusicPlayer.set_voice_client vc' s1, [Started h])
      | Raise err =>
          if is_ClientException err then (Ok false, s1, [Started h])
          else (Raise err, s1, [Started h])
      end
  | Raise err =>
      if is_ClientException err then (Ok false, s1, [Started h])
      else (Raise err, s1, [Started h])
  end.

(* ================================================================== *)
(** ** The rest of the player: [embed], call sequences, the event loop *)

(** A text given in Japanese and in English. *)
Record lang_text := { ja : string; en : string }.

(** [discord.Embed], with what [embed] puts into it. *)
Record Embed := {
  embed_title : lang_text;
  embed_description : string;
  embed_color : Z;
  embed_author_name : string;
  embed_author_icon : string;
  embed_image : string;
  embed_fields : list (lang_text * string)
}.

Definition EMBED_TITLE : lang_text :=
  {| ja := "現在再生中の音楽"; en := "Now playing" |}.

(** What [embed] reads from a track besides its title, URL and
    thumbnail: [make_seek_bar()], [author.display_name],
    [author.avatar.url] when the author has an avatar, and [elapsed]. *)
Record TrackView := {
  make_seek_bar : MusicData -> string;
  author_display_name : MusicData -> string;
  author_avatar_url : MusicData -> option string;
  elapsed : MusicData -> string
}.

(** [embed]; [player_color] is [self.cog.bot.colors["player"]]. *)
Definition embed {V} (view : TrackView) (player_color : Z) (index : Z)
  : M (MusicPlayer.t V) (option Embed) :=
  (qs <- gets MusicPlayer.queues ;;
   if bool_decide (qs <> []) then
     queue <- lift (py_getitem qs index) ;;
     ret (Some {|
       embed_title := EMBED_TITLE;
       embed_description := make_seek_bar view queue;
       embed_color := player_color;
       embed_author_name := author_display_name view queue;
       embed_author_icon := default "" (author_avatar_url view queue);
       embed_image := thumbnail queue;
       embed_fields :=
         [({| ja := "タイトル"; en := "Title" |},
           "[" +:+ title queue +:+ "](" +:+ url queue +:+ ")");
          ({| ja := "時間"; en := "Elapsed time" |}, elapsed view queue)]
     |})
   else ret None)%py.

(** The calls a command layer (or the voice client, for [OpAfter])
    makes on a player. *)
Inductive op (G : Type) :=
| OpAddQueue (music : MusicData)
| OpRemoveQueue (index : Z + MusicData)
| OpReadQueue (index : Z)
| OpAfter (e : option exn)
| OpPlay
| OpClear
| OpSkip (now : float)
| OpPause
| OpLoop
| OpShuffle (g : G)
| OpCheckTimeout (now : float) (t : Z).
Arguments OpAddQueue {G}.
Arguments OpRemoveQueue {G}.
Arguments OpReadQueue {G}.
Arguments OpAfter {G}.
Arguments OpPlay {G}.
Arguments OpClear {G}.
Arguments OpSkip {G}.
Arguments OpPause {G}.
Arguments OpLoop {G}.
Arguments OpShuffle {G}.
Arguments OpCheckTimeout {G}.

(** The player after one call, whether the call returned or raised. *)
Definition run_op {Source V G} `{!VoiceClient Source V} `{!RandomGen G}
    (get_source : MusicData -> result Source) (o : op G) (s : MusicPlayer.t V)
  : MusicPlayer.t V :=
  match o with
  | OpAddQueue m => state_of (MusicPlayer.add_queue m s)
  | OpRemoveQueue index => state_of (MusicPlayer.remove_queue index s)
  | OpReadQueue i => state_of (MusicPlayer.read_queue i s)
  | OpAfter e => state_of (MusicPlayer._after get_source e s)
  | OpPlay => state_of (MusicPlayer.play get_source s)
  | OpClear => state_of (MusicPlayer.clear s)
  | OpSkip now => state_of (MusicPlayer.skip now s)
  | OpPause => state_of (MusicPlayer.pause s)
  | OpLoop => state_of (MusicPlayer.loop s)
  | OpShuffle g => state_of (MusicPlayer.shuffle g s)
  | OpCheckTimeout now t => state_of (MusicPlayer.check_timeout now t s)
  end.

Definition run_ops {Source V G} `{!VoiceClient Source V} `{!RandomGen G}
    (get_source : MusicData -> result Source) (ops : list (op G))
    (s : MusicPlayer.t V) : MusicPlayer.t V :=
  foldl (fun s o => run_op get_source o s) s ops.

Definition is_OpClear {G} (o : op G) : bool :=
  match o with OpClear => true | _ => false end.

(** The bound that holds for every call sequence: the queue is never
    longer than its counter says, and the counter never passes [MAX]. *)
Definition within_capacity {V} (s : MusicPlayer.t V) : Prop :=
  Z.of_nat (List.length (MusicPlayer.queues s)) <= MusicPlayer.length s
  /\ MusicPlayer.length s <= MusicPlayer.MAX.

(** The tasks handed to [loop.create_task] in a trace. *)
Definition created (evs : list event) : list task :=
  omap (fun ev => match ev with CreateTask t => Some t | _ => None end) evs.

(** The event loop running the pending [_after] tasks in order, for at
    most [fuel] of them; a task that raises is dropped (asyncio logs
    it) and the loop goes on. The result is the player, the trace and
    the tasks still pending. *)
Fixpoint run_loop {Source V} `{!VoiceClient Source V}
    (get_source : MusicData -> result Source)
    (fuel : nat) (pending : list task) (s : MusicPlayer.t V)
  : MusicPlayer.t V * list event * list task :=
  match fuel, pending with
  | S fuel', AfterTask e :: rest =>
      let '(_, s1, ev1) := MusicPlayer._after get_source e s in
      let '(s2, ev2, waiting) :=
        run_loop get_source fuel' (rest ++ created ev1) s1 in
      (s2, ev1 ++ ev2, waiting)
  | _, _ => (s, [], pending)
  end.

(** What one failed attempt on track [h] leaves in the trace after the
    [close]: the start mark, the message, the retry. *)
Definition failed_attempt (h : MusicData) : list event :=
  [Started h; Send error_text; CreateTask (AfterTask None)].

(* ================================================================== *)
(** ** The role gate ([cogs/rtrole.py]) *)

Module RTRole.

(** What is stored under a role id: the dict with the keys ["commands"]
    and ["role_name"]. [set_] writes both; a table loaded from the file
    may lack either, which is why the code reads them with [.get]. *)
Record entry := {
  commands : option string;
  role_name : option string
}.

#[global] Instance entry_eq_dec : EqDecision entry.
Proof. solve_decision. Defined.

(** [self.data]: guild id, then role id, both as [str(id)]. *)
Abbreviation data := (gmap string (gmap string entry)).

Record Role := {
  role_id : Z;
  name : string
}.

Record Guild := {
  guild_id : Z;
  roles : list Role
}.

(** What the check reads from [ctx]: the guild (none in a direct
    message), the ids of the roles the author holds, and
    [ctx.command.qualified_name]. *)
Record Ctx := {
  guild : option Guild;
  author_roles : list Z;
  qualified_name : string
}.

(** [str(n)] for an [int]. *)
Definition str (n : Z) : string := pretty n.

(** [d.get(key, "")] on the two keys. *)
Definition get_commands (e : entry) : string := default "" (commands e).
Definition get_role_name (e : entry) : string := default "" (role_name e).

(** The predicate handed to [discord.utils.find] in [has_role]. *)
Definition role_matches (d : data) (gid : Z) (command : string) (r : Role)
  : bool :=
  is_substring "RT-" (name r)
  || match d !! str gid with
     | Some table =>
         match table !! str (role_id r) with
         | Some e => is_substring command (get_commands e)
         | None => false
         end
     | None => false
     end.

(** The global check installed by [__init__]. *)
Definition has_role (d : data) (ctx : Ctx) : bool :=
  match guild ctx with
  | Some g =>
      match List.find (role_matches d (guild_id g) (qualified_name ctx))
              (roles g) with
      | Some role => bool_decide (role_id role ∈ author_roles ctx)
      | None => true
      end
  | None => true
  end.

(** What the commands do besides changing [self.data]. *)
Inductive event :=
| Saved (d : data)
| Replied (text : string).

(** [self.data[gid]] on a [defaultdict(dict)]: a missing guild gets an
    empty table on the way. *)
Definition defaultdict_get (gid : string) (d : data)
  : gmap string entry * data :=
  match d !! gid with
  | Some table => (table, d)
  | None => (∅, <[gid:=∅]> d)
  end.

(** [rtrole set] *)
Definition set_ (gid : Z) (role : Role) (cmds : string) (d : data)
  : data * list event :=
  let '(table, d1) := defaultdict_get (str gid) d in
  if decide (size table <= 50)%nat then
    let '(table1, d2) := defaultdict_get (str gid) d1 in
    let d3 :=
      <[str gid :=
          <[str (role_id role) :=
              {| commands := Some cmds; role_name := Some (name role) |}]>
            table1]> d2 in
    (d3, [Saved d3; Replied "Ok"])
  else (d1, [Replied "50個まで設定可能です。"]).

(** The loop of [delete] for a role given by name: every entry with
    that name goes, and [removed] records whether there was one. *)
Definition delete_named (nm : string) (table : gmap string entry)
  : gmap string entry * bool :=
  map_fold
    (fun rid e (acc : gmap string entry * bool) =>
       if decide (get_role_name e = nm) then (base.delete rid acc.1, true)
       else acc)
    (table, false) table.

(** [rtrole delete]. For a [discord.Role] the [else] of the [try]
    assigns [remoevd], so [removed] is still [False] afterwards. *)
Definition delete (gid : Z) (role : Role + string) (d : data)
  : data * list event :=
  let '(table, d1) := defaultdict_get (str gid) d in
  if bool_decide (table <> ∅) then
    let '(table', removed) :=
      match role with
      | inr nm => delete_named nm table
      | inl r => (base.delete (str (role_id r)) table, false)
      end in
    let d2 := <[str gid := table']> d1 in
    if removed then (d2, [Saved d2; Replied "Ok"])
    else (d2, [Replied "その役職は設定されていません。"])
  else (d1, []).

(** No guild has more than 51 roles configured. *)
Definition bounded (d : data) : Prop :=
  forall gid table, d !! gid = Some table -> (size table <= 51)%nat.

End RTRole.

(* ================================================================== *)
(** ** The SQL helper ([rtlib/mysql_manager.py], class [Cursor]) *)

Module Cursor.

(** [s[:n]] *)
Fixpoint str_take (n : nat) (s : string) : string :=
  match n, s with
  | S n', String c s' => String c (str_take n' s')
  | _, _ => EmptyString
  end.

(** [s[:-k]] for a positive [k]: a string shorter than [k] gives [""]. *)
Definition drop_last (k : nat) (s : string) : string :=
  str_take (String.length s - k) s.

(** [s * n] *)
Fixpoint str_repeat (s : string) (n : nat) : string :=
  match n with
  | O => EmptyString
  | S n' => s +:+ str_repeat s n'
  end.

(** [fmt.format(arg)] for a format text with one [{}] field, as the
    three format texts of this class are. *)
Fixpoint py_format1 (fmt arg : string) : string :=
  match fmt with
  | String "{"%char (String "}"%char rest) => arg +:+ rest
  | String c rest => String c (py_format1 rest arg)
  | EmptyString => EmptyString
  end.

(** [s[0]] and [s[-1]]; [None] stands for the [IndexError] on [""]. *)
Definition str_first (s : string) : option ascii :=
  match s with
  | String c _ => Some c
  | EmptyString => None
  end.

Fixpoint str_last (s : string) : option ascii :=
  match s with
  | EmptyString => None
  | String c EmptyString => Some c
  | String _ s' => str_last s'
  end.

(** A value bound to a statement or found in a decoded row; [J] is
    the type of a parsed JSON object (a Python [dict]). *)
Inductive value (J : Type) :=
| VStr (s : string)
| VInt (n : Z)
| VNone
| VDict (j : J).
Arguments VStr {J}.
Arguments VInt {J}.
Arguments VNone {J}.
Arguments VDict {J}.

(** A column of a row as the driver returns it. *)
Inductive cell :=
| CStr (s : string)
| CInt (n : Z)
| CNull.

(** The calls made on the driver, on a cursor that has been prepared:
    [cursor.execute(query, args)] and [connection.commit()]. *)
Inductive db_event (J : Type) :=
| Execute (query : string) (args : option (list (value J)))
| Commit.
Arguments Execute {J}.
Arguments Commit {J}.

Section WithJson.
Context {J : Type} `{EqDecision J}.
(** [ujson.dumps] and [ujson.loads] *)
Variable dumps : J -> string.
Variable loads : string -> result J.

(** [if commit: await self.connection.commit()] *)
Definition commit_events (commit : bool) : list (db_event J) :=
  if commit then [Commit] else [].

(** A dict is visited item by item, in insertion order; [values[key]]
    is the value of the item. *)
Definition _get_column_args (values : list (string * value J))
    (format_text : string) : string * list (value J) :=
  fold_left
    (fun acc item => (acc.1 +:+ py_format1 format_text item.1, acc.2 ++ [item.2]))
    values (EmptyString, []).

Definition create_table (table : string) (columns : list (string * string))
    (if_not_exists commit : bool) : list (db_event J) :=
  let if_not_exists := if if_not_exists then "IF NOT EXISTS " else "" in
  let values :=
    String.concat ", " ((fun item => item.1 +:+ " " +:+ item.2) <$> columns) in
  Execute ("CREATE TABLE " +:+ if_not_exists +:+ table +:+ " (" +:+ values
           +:+ ")") None
  :: commit_events commit.

Definition drop_table (table : string) (if_exists commit : bool)
  : list (db_event J) :=
  let if_exists := if if_exists then "IF EXISTS " else "" in
  Execute ("DROP TABLE " +:+ if_exists +:+ table) None
  :: commit_events commit.

Definition insert_data (table : string) (values : list (string * value J))
    (commit : bool) : list (db_event J) :=
  let '(conditions, args) := _get_column_args values "{}, " in
  let query := drop_last 2 (str_repeat "%s, " (List.length args)) in
  Execute
    ("INSERT INTO " +:+ table +:+ " (" +:+ drop_last 2 conditions
     +:+ ") VALUES (" +:+ query +:+ ")")
    (Some ((fun arg => match arg with
                       | VDict j => VStr (dumps j)
                       | _ => arg
                       end) <$> args))
  :: commit_events commit.

Definition update_data (table : string) (values targets : list (string * value J))
    (commit : bool) : list (db_event J) :=
  let '(values, values_args) := _get_column_args values "{} = %s AND" in
  let '(conditions, conditions_args) :=
    _get_column_args targets "{} = %s AND" in
  Execute
    ("UPDATE " +:+ table +:+ " SET " +:+ drop_last 4 values +:+ " WHERE "
     +:+ drop_last 4 conditions)
    (Some (values_args ++ conditions_args))
  :: commit_events commit.

Definition delete (table : string) (targets : list (string * value J))
    (commit : bool) : list (db_event J) :=
  let '(conditions, args) := _get_column_args targets "{} = %s AND" in
  Execute ("DELETE FROM " +:+ table +:+ " WHERE " +:+ drop_last 4 conditions)
    (Some args)
  :: commit_events commit.

(** [ujson.loads(data) if data[0] == "{" and data[-1] == "}" else data]
    on one column. *)
Definition decode_cell (data : cell) : result (value J) :=
  match data with
  | CStr s =>
      match str_first s, str_last s with
      | Some c0, Some c1 =>
          if Ascii.eqb c0 "{" && Ascii.eqb c1 "}" then
            match loads s with
            | Ok j => Ok (VDict j)
            | Raise err => Raise err
            end
          else Ok (VStr s)
      | _, _ => Raise IndexError
      end
  | CInt _ | CNull => Raise TypeError
  end.

(** The list comprehension over a row, left to right; [None] is what
    [fetchone] returns when there is no row. *)
Fixpoint decode_cells (row : list cell) : result (list (value J)) :=
  match row with
  | [] => Ok []
  | data :: row' =>
      match decode_cell data with
      | Ok v =>
          match decode_cells row' with
          | Ok vs => Ok (v :: vs)
          | Raise err => Raise err
          end
      | Raise err => Raise err
      end
  end.

Definition decode_row (row : option (list cell)) : result (list (value J)) :=
  match row with
  | Some cells => decode_cells cells
  | None => Raise TypeError
  end.

(** The [for row in rows] loop of [get_datas], collecting what it
    yields. *)
Fixpoint yield_rows (_fetchall : bool) (rows : list (option (list cell)))
  : result (list (list (value J))) :=
  match rows with
  | [] => Ok []
  | row :: rows' =>
      match decode_row row with
      | Ok datas =>
          if negb _fetchall then Ok [datas]
          else
            match yield_rows _fetchall rows' with
            | Ok more => Ok (datas :: more)
            | Raise err => Raise err
            end
      | Raise err => Raise err
      end
  end.

(** [get_datas]; [db] gives the rows the server finds for a statement.
    The result is what the generator yields until it is exhausted. *)
Definition get_datas
    (db : string -> option (list (value J)) -> list (list cell))
    (table : string) (targets : list (string * value J)) (_fetchall : bool)
  : list (db_event J) * result (list (list (value J))) :=
  let '(conditions, args) :=
    if bool_decide (targets <> []) then
      let '(conditions, args) := _get_column_args targets "{} = %s AND" in
      (" WHERE " +:+ drop_last 4 conditions, Some args)
    else (EmptyString, None) in
  let query := "SELECT * FROM " +:+ table +:+ conditions in
  let found := db query args in
  let rows :=
    if negb _fetchall then Some <$> found
    else [head found] in
  ([Execute query args],
   if bool_decide (rows <> []) then yield_rows _fetchall rows
   else Ok [[]]).

Definition get_data
    (db : string -> option (list (value J)) -> list (list cell))
    (table : string) (targets : list (string * value J))
  : list (db_event J) * result (list (value J)) :=
  let '(evs, rows) := get_datas db table targets false in
  (evs,
   match rows with
   | Ok rows => py_getitem rows 0
   | Raise err => Raise err
   end).

Definition exists_
    (db : string -> option (list (value J)) -> list (list cell))
    (table : string) (targets : list (string * value J))
  : list (db_event J) * result bool :=
  let '(evs, row) := get_data db table targets in
  (evs,
   match row with
   | Ok row => Ok (bool_decide (row <> []))
   | Raise err => Raise err
   end).

(** The text that one list of conditions becomes: every column name
    followed by [" = %s"], with ["AND"] between two of them. *)
Definition joined_conditions (keys : list string) : string :=
  match keys with
  | [] => EmptyString
  | _ => String.concat " = %s AND" keys +:+ " = %s"
  end.

End WithJson.
End Cursor.

(* ================================================================== *)
(** ** Data for concrete runs of the role gate and the SQL helper *)

(** No track can be resolved. *)
Definition resolve_none (m : MusicData) : result string :=
  Raise (OtherError "DownloadError").

Definition seek_view : TrackView := {|
  make_seek_bar := fun m => "0:00 [----] 3:00";
  author_display_name := fun m => "tasuren";
  author_avatar_url := fun m => None;
  elapsed := fun m => "0:00"
|}.

Definition mods : RTRole.Role :=
  {| RTRole.role_id := 7; RTRole.name := "mods" |}.
Definition helpers : RTRole.Role :=
  {| RTRole.role_id := 8; RTRole.name := "helpers" |}.
Definition guild10 : RTRole.Guild :=
  {| RTRole.guild_id := 10; RTRole.roles := [helpers; mods] |}.

(** A member of [guild10] without any role, calling [ping]. *)
Definition outsider_ping : RTRole.Ctx :=
  {| RTRole.guild := Some guild10; RTRole.author_roles := [];
     RTRole.qualified_name := "ping" |}.

Definition helpers_entry : RTRole.entry :=
  {| RTRole.commands := Some "help"; RTRole.role_name := Some "helpers" |}.

(** [guild10] with [helpers] configured. *)
Definition helpers_table : gmap string RTRole.entry := <["8" := helpers_entry]> ∅.
Definition helpers_only : gmap string (gmap string RTRole.entry) :=
  <["10" := helpers_table]> ∅.

(** JSON objects stood for by their text. *)
Definition text_dumps (j : string) : string := j.
Definition text_loads (s : string) : result string := Ok s.

Definition friends_db (query : string) (args : option (list (Cursor.value string)))
  : list (list Cursor.cell) :=
  [[Cursor.CStr "Takkun"; Cursor.CStr "{}"]; [Cursor.CStr "tasuren"; Cursor.CStr "-"]].

(* ================================================================== *)
(** ** Facts about the Python operations *)

Ltac py_unfold :=
  unfold bind, ret, raise, gets, modify, emit, lift, try_except, load_name in *.

Lemma py_index_Some n i k :
  py_index n i = Some k ->
  (k < n)%nat /\ (Z.of_nat k = i \/ Z.of_nat k = i + Z.of_nat n).
Proof.
  unfold py_index. intros Hk.
  destruct (i <? 0) eqn:Hneg;
    destruct (_ && _) eqn:Hin; simplify_eq;
    apply andb_true_iff in Hin as [H0 Hn];
    apply Z.leb_le in H0; apply Z.ltb_lt in Hn; lia.
Qed.

Lemma py_index_None n i :
  py_index n i = None <-> ~ (- Z.of_nat n <= i < Z.of_nat n).
Proof.
  unfold py_index.
  destruct (i <? 0) eqn:Hneg; [apply Z.ltb_lt in Hneg | apply Z.ltb_ge in Hneg];
    destruct (_ && _) eqn:Hin.
  - apply andb_true_iff in Hin as [H0 Hn].
    apply Z.leb_le in H0. apply Z.ltb_lt in Hn. split; [done | lia].
  - apply andb_false_iff in Hin as [H0 | Hn];
      [apply Z.leb_gt in H0 | apply Z.ltb_ge in Hn]; split; auto; lia.
  - apply andb_true_iff in Hin as [H0 Hn].
    apply Z.leb_le in H0. apply Z.ltb_lt in Hn. split; [done | lia].
  - apply andb_false_iff in Hin as [H0 | Hn];
      [apply Z.leb_gt in H0 | apply Z.ltb_ge in Hn]; split; auto; lia.
Qed.

Lemma py_getitem_head {A} (h : A) rest : py_getitem (h :: rest) 0 = Ok h.
Proof. reflexivity. Qed.

Lemma py_getitem_nil {A} i : py_getitem (@nil A) i = Raise IndexError.
Proof.
  unfold py_getitem.
  destruct (py_index _ i) as [k|] eqn:Hk; [|done].
  apply py_index_Some in Hk as [Hk _]. simpl in Hk. lia.
Qed.

Lemma py_del_head {A} (h : A) rest : py_del (h :: rest) 0 = Ok rest.
Proof. reflexivity. Qed.

Lemma py_del_Ok {A} (l l' : list A) i :
  py_del l i = Ok l' -> List.length l' = (List.length l - 1)%nat.
Proof.
  unfold py_del. destruct (py_index _ i) as [k|] eqn:Hk; [|done].
  intros [= <-]. apply py_index_Some in Hk as [Hk _].
  rewrite length_delete; [done|]. by apply lookup_lt_is_Some_2.
Qed.

Lemma list_remove_None `{EqDecision A} (x : A) l :
  list_remove x l = None <-> x ∉ l.
Proof.
  induction l as [|y l IH]; simpl.
  - split; [intros _; apply not_elem_of_nil | done].
  - destruct (decide (y = x)) as [->|Hne].
    + split; [done | intros []; left].
    + rewrite not_elem_of_cons. destruct (list_remove x l); simpl.
      * split; [done | intros [_ Hx]]. by apply IH in Hx.
      * split; [intros _ | done]. split; [done | by apply IH].
Qed.

Lemma list_remove_length `{EqDecision A} (x : A) l l' :
  list_remove x l = Some l' -> List.length l' = (List.length l - 1)%nat.
Proof.
  revert l'. induction l as [|y l IH]; intros l'; simpl; [done|].
  destruct (decide (y = x)); [intros [= <-]; lia|].
  destruct (list_remove x l) as [l0|] eqn:Hl; simpl; [|done].
  intros [= <-]. simpl. rewrite (IH l0 eq_refl).
  destruct l; [done | simpl; lia].
Qed.

Lemma delete_insert_same {A} (l : list A) i x :
  delete i (<[i:=x]> l) = delete i l.
Proof.
  revert i. induction l as [|y l IH]; intros [|i]; simpl; f_equal; auto.
Qed.

Lemma swap_Permutation {A} (x : list A) i j : swap x i j ≡ₚ x.
Proof.
  unfold swap.
  destruct (x !! i) as [a|] eqn:Hi; [|done].
  destruct (x !! j) as [b|] eqn:Hj; [|done].
  destruct (decide (i = j)) as [->|Hne].
  - simplify_eq. rewrite list_insert_insert_eq. by rewrite list_insert_id.
  - assert (Hib : <[i:=b]> x !! i = Some b)
      by (apply list_lookup_insert_eq; by eapply lookup_lt_Some).
    assert (Hjb : <[i:=b]> x !! j = Some b)
      by (by rewrite list_lookup_insert_ne).
    assert (Hja : <[j:=a]> (<[i:=b]> x) !! j = Some a)
      by (apply list_lookup_insert_eq; by eapply lookup_lt_Some).
    apply delete_Permutation in Hib, Hjb, Hja.
    rewrite delete_insert_same in Hib, Hja.
    etrans; [exact Hja|].
    etrans; [|symmetry; exact (delete_Permutation x i a Hi)].
    constructor. apply (Permutation_cons_inv (a:=b)).
    etrans; [symmetry; exact Hjb | exact Hib].
Qed.

Lemma shuffle_from_Permutation `{RandomGen G} {A} i (x : list A) (g : G) :
  (shuffle_from i x g).1 ≡ₚ x.
Proof.
  revert x g. induction i as [|i IH]; intros x g; [done|].
  simpl. destruct (randbelow (S (S i)) g) as [j g'].
  rewrite IH. apply swap_Permutation.
Qed.

Lemma random_shuffle_Permutation `{RandomGen G} {A} (x : list A) (g : G) :
  (random_shuffle x g).1 ≡ₚ x.
Proof. apply shuffle_from_Permutation. Qed.

(* ================================================================== *)
(** ** Sequencing laws *)

Section Laws.
Context {S A B : Type}.
Implicit Types (k : A -> M S B) (s : S).

Lemma bind_ret a k s : bind (ret a) k s = k a s.
Proof. unfold bind, ret. by destruct (k a s) as [[r s2] ev2]. Qed.

Lemma bind_gets (f : S -> A) k s : bind (gets f) k s = k (f s) s.
Proof. unfold bind, gets. by destruct (k (f s) s) as [[r s2] ev2]. Qed.

Lemma bind_lift_Ok a k s : bind (lift (Ok a)) k s = k a s.
Proof. unfold bind, lift. by destruct (k a s) as [[r s2] ev2]. Qed.

Lemma bind_lift_Raise err k s :
  bind (lift (Raise err)) k s = (Raise err, s, []).
Proof. reflexivity. Qed.

Lemma bind_raise err k s : bind (raise err) k s = (Raise err, s, []).
Proof. reflexivity. Qed.

Lemma bind_modify (f : S -> S) (k' : unit -> M S B) s :
  bind (modify f) k' s = k' tt (f s).
Proof. unfold bind, modify. by destruct (k' tt (f s)) as [[r s2] ev2]. Qed.

Lemma bind_emit ev (k' : unit -> M S B) s :
  bind (emit ev) k' s = with_events [ev] (k' tt s).
Proof. unfold bind, emit, with_events. by destruct (k' tt s) as [[r s2] ev2]. Qed.
End Laws.

(* ================================================================== *)
(** ** The player's methods, one step at a time *)

Section PlayerSteps.
Context {Source V : Type} `{!VoiceClient Source V}.
Variable get_source : MusicData -> result Source.
Implicit Types (s : MusicPlayer.t V) (m h : MusicData) (e : option exn).

Import MusicPlayer.

Lemma set_queues_same s : set_queues (queues s) s = s.
Proof. by destruct s. Qed.

Lemma add_queue_below m s :
  length s <> MAX ->
  add_queue m s
  = (Ok tt, set_length (length s + 1) (set_queues (queues s ++ [m]) s),
     [SetMakeGetSource m]).
Proof.
  intros Hlen. unfold add_queue. py_unfold. simpl.
  by apply Z.eqb_neq in Hlen as ->.
Qed.

Lemma add_queue_full m s :
  length s = MAX ->
  add_queue m s
  = (Raise (OverflowError "追加しすぎです。"), s, [SetMakeGetSource m]).
Proof.
  intros Hlen. unfold add_queue. py_unfold. simpl.
  by apply Z.eqb_eq in Hlen as ->.
Qed.

Lemma add_queue_all_from ms s :
  length s + Z.of_nat (List.length ms) <= MAX ->
  add_queue_all ms s
  = (Ok tt,
     set_length (length s + Z.of_nat (List.length ms))
       (set_queues (queues s ++ ms) s),
     SetMakeGetSource <$> ms).
Proof.
  revert s. induction ms as [|m ms IH]; intros s Hlen.
  - simpl. unfold ret. destruct s; simpl. rewrite app_nil_r.
    by rewrite Z.add_0_r.
  - simpl add_queue_all. unfold bind at 1.
    rewrite add_queue_below by (simpl in Hlen; lia).
    rewrite IH by (simpl in *; lia).
    destruct s as [vc qs len lp bf]; simpl. rewrite <- app_assoc. simpl.
    unfold set_length, set_queues. simpl.
    by replace (len + 1 + Z.of_nat (List.length ms))
      with (len + Z.of_nat (S (List.length ms))) by lia.
Qed.

Lemma remove_queue_raises index s :
  remove_fails index s ->
  remove_queue index s = (Raise (remove_error index), s, []).
Proof.
  unfold remove_fails, remove_queue. py_unfold.
  destruct index as [i|m]; simpl; intros Hfail.
  - unfold py_del. by apply py_index_None in Hfail as ->.
  - unfold py_remove. by apply list_remove_None in Hfail as ->.
Qed.

Lemma remove_queue_returns index s :
  ~ remove_fails index s ->
  exists qs',
    remove_queue index s
    = (Ok tt, set_length (length s - 1) (set_queues qs' s), [])
    /\ List.length qs' = (List.length (queues s) - 1)%nat.
Proof.
  unfold remove_fails, remove_queue. py_unfold.
  destruct index as [i|m]; simpl; intros Hok.
  - destruct (py_del (queues s) i) as [qs'|err] eqn:Hdel.
    + exists qs'. split; [done | by eapply py_del_Ok].
    + exfalso. apply Hok. apply py_index_None.
      unfold py_del in Hdel. by destruct (py_index _ i).
  - unfold py_remove.
    destruct (list_remove m (queues s)) as [qs'|] eqn:Hrem.
    + exists qs'. split; [done | by eapply list_remove_length].
    + exfalso. by apply Hok, list_remove_None.
Qed.

Lemma remove_queue_head h rest s :
  queues s = h :: rest ->
  remove_queue (inl 0) s
  = (Ok tt, set_length (length s - 1) (set_queues rest s), []).
Proof.
  intros Hq. unfold remove_queue. py_unfold. simpl. by rewrite Hq.
Qed.

Lemma play_nothing s :
  queues s = [] \/ is_playing (voice_client s) = true ->
  play get_source s = (Ok false, s, []).
Proof.
  unfold play. py_unfold. simpl. intros [-> | ->]; [done|].
  by rewrite andb_false_r.
Qed.

Lemma play_head h rest s :
  queues s = h :: rest ->
  is_playing (voice_client s) = false ->
  play get_source s = play_started get_source h s.
Proof.
  intros Hq Hidle. unfold play, play_started. py_unfold. simpl.
  rewrite Hq, Hidle. simpl.
  destruct (get_source h) as [src|err]; simpl.
  - destruct (vc_play _ src _) as [vc'|err]; simpl; [done|].
    by destruct (is_ClientException err).
  - by destruct (is_ClientException err).
Qed.

Lemma play_keeps_queue s :
  queues (state_of (play get_source s)) = queues s
  /\ length (state_of (play get_source s)) = length s
  /\ _loop (state_of (play get_source s)) = _loop s.
Proof.
  destruct (queues s) as [|h rest] eqn:Hq.
  { rewrite play_nothing by auto. by rewrite <- Hq. }
  destruct (is_playing (voice_client s)) eqn:Hp.
  { rewrite play_nothing by auto. by rewrite <- Hq. }
  rewrite (play_head h rest) by done. rewrite <- Hq. unfold play_started.
  destruct (get_source h) as [src|err].
  - destruct (vc_play _ src _) as [vc'|err]; [done|].
    by destruct (is_ClientException err).
  - by destruct (is_ClientException err).
Qed.

(** The [try] block of [_after]. *)
Lemma retry_unfold s :
  try_except (play get_source ;; ret tt)%py
    (fun _ => emit (Send error_text) ;;
              emit (CreateTask (AfterTask None)))%py s
  = match play get_source s with
    | (Ok _, s1, ev1) => (Ok tt, s1, ev1)
    | (Raise _, s1, ev1) =>
        (Ok tt, s1, ev1 ++ [Send error_text; CreateTask (AfterTask None)])
    end.
Proof.
  unfold try_except, bind.
  destruct (play get_source s) as [[[b|err] s1] ev1]; simpl;
    by rewrite ?app_nil_r.
Qed.

(** [_after] on a queue with a head: the head is closed, removed
    unless looping, and [play] runs under the [try]. *)
Lemma after_unfold e h rest s :
  queues s = h :: rest ->
  _after get_source e s
  = match play get_source (before_retry s) with
    | (Ok _, s1, ev1) => (Ok tt, s1, Closed h :: print_events e ++ ev1)
    | (Raise _, s1, ev1) =>
        (Ok tt, s1,
         Closed h :: print_events e ++ ev1
           ++ [Send error_text; CreateTask (AfterTask None)])
    end.
Proof.
  intros Hq. unfold _after.
  rewrite bind_gets, Hq, py_getitem_head, bind_lift_Ok, bind_emit.
  assert (Hrest :
    bind (gets _loop) (fun looping =>
      bind (if negb looping then remove_queue (inl 0) else ret tt)
        (fun _ => try_except (play get_source ;; ret tt)%py
           (fun _ => emit (Send error_text) ;;
                     emit (CreateTask (AfterTask None)))%py)) s
    = match play get_source (before_retry s) with
      | (Ok _, s1, ev1) => (Ok tt, s1, ev1)
      | (Raise _, s1, ev1) =>
          (Ok tt, s1, ev1 ++ [Send error_text; CreateTask (AfterTask None)])
      end).
  { rewrite bind_gets. unfold before_retry.
    destruct (_loop s); simpl negb; cbv iota.
    - by rewrite bind_ret, retry_unfold.
    - unfold bind at 1. rewrite (remove_queue_head h rest) by done.
      rewrite retry_unfold, Hq. simpl drop.
      by destruct (play get_source _) as [[[b|err] s1] ev1]. }
  destruct e as [err|]; simpl print_events.
  - rewrite bind_emit, Hrest.
    by destruct (play get_source _) as [[[b|err'] s1] ev1].
  - rewrite bind_ret, Hrest.
    by destruct (play get_source _) as [[[b|err'] s1] ev1].
Qed.

Lemma after_empty e s :
  queues s = [] -> _after get_source e s = (Raise IndexError, s, []).
Proof.
  intros Hq. unfold _after. py_unfold. simpl. rewrite Hq.
  by rewrite py_getitem_nil.
Qed.
End PlayerSteps.

(* ================================================================== *)
(** ** The queue: capacity, removal, clearing *)

Section QueueFacts.
Context {V : Type}.
Implicit Types (s : MusicPlayer.t V) (m h : MusicData).

Import MusicPlayer.

Lemma add_queue_consistent m s :
  length_consistent s -> length_consistent (state_of (add_queue m s)).
Proof.
  unfold length_consistent. intros Hs.
  destruct (decide (length s = MAX)) as [Hfull|Hroom].
  - by rewrite add_queue_full.
  - rewrite add_queue_below by done. unfold state_of. simpl.
    rewrite length_app. simpl. lia.
Qed.

Lemma remove_queue_consistent index s :
  length_consistent s -> length_consistent (state_of (remove_queue index s)).
Proof.
  unfold length_consistent. intros Hs.
  destruct (decide (remove_fails index s)) as [Hfail|Hok].
  - by rewrite remove_queue_raises.
  - destruct (remove_queue_returns index s Hok) as (qs' & -> & Hlen).
    unfold state_of. simpl. rewrite Hlen.
    assert (List.length (queues s) <> 0%nat); [|lia].
    intros Hnil. apply Hok. apply nil_length_inv in Hnil.
    destruct index as [i|m]; simpl; rewrite Hnil; simpl;
      [lia | apply not_elem_of_nil].
Qed.

Lemma clear_unfold s : clear s = (Ok tt, set_queues (take 1 (queues s)) s, []).
Proof. reflexivity. Qed.

Lemma shuffle_unfold `{!RandomGen G} (g : G) s :
  shuffle g s
  = if 1 <? length s then
      (Ok (random_shuffle (drop 1 (queues s)) g).2,
       set_queues (take 1 (queues s)
                   ++ (random_shuffle (drop 1 (queues s)) g).1) s, [])
    else (Ok g, s, []).
Proof.
  unfold shuffle. rewrite bind_gets.
  destruct (1 <? length s); [|done].
  rewrite bind_gets.
  destruct (random_shuffle (drop 1 (queues s)) g) as [queues' g'].
  by rewrite bind_gets, bind_modify.
Qed.

Lemma shuffle_consistent `{!RandomGen G} (g : G) s :
  length_consistent s -> length_consistent (state_of (shuffle g s)).
Proof.
  unfold length_consistent. intros Hs. rewrite shuffle_unfold.
  destruct (1 <? length s); [|done].
  unfold state_of. simpl. rewrite Hs, length_app.
  rewrite (Permutation_length (random_shuffle_Permutation _ g)).
  rewrite <- length_app. by rewrite take_drop.
Qed.
End QueueFacts.

Section QueueClaims.
Context {V : Type}.
Implicit Types (s : MusicPlayer.t V) (m h : MusicData).

Import MusicPlayer.

(** C1. The length counter is meant to equal the number of entries
    after every mutation; [add_queue], [remove_queue] and [shuffle]
    keep it so (lemmas above), but [clear] truncates the queue and
    leaves the counter alone: on a consistent queue of more than one
    entry the counter keeps its old value while one entry remains. *)
Theorem clear_leaves_counter_stale s :
  length_consistent s ->
  1 < length s ->
  length (state_of (clear s)) = length s
  /\ List.length (queues (state_of (clear s))) = 1%nat
  /\ ~ length_consistent (state_of (clear s)).
Proof.
  unfold length_consistent. intros Hs Hlen. rewrite clear_unfold.
  unfold state_of. simpl.
  destruct (queues s) as [|h [|h' rest]]; simpl in *; lia.
Qed.

(** C2. From an empty queue, enqueueing N <= 800 tracks succeeds,
    leaves them in order with the counter at N; one step appends at
    the tail; at 800 the call raises [OverflowError] and the player is
    as before. *)
Theorem add_queue_capacity (vc : V) (ms : list MusicData) :
  (List.length ms <= 800)%nat ->
  add_queue_all ms (init vc)
  = (Ok tt, mk vc ms (Z.of_nat (List.length ms)) false (Num 0%float),
     SetMakeGetSource <$> ms)
  /\ (forall s m, length s <> 800 ->
        value_of (add_queue m s) = Ok tt
        /\ queues (state_of (add_queue m s)) = queues s ++ [m]
        /\ length (state_of (add_queue m s)) = length s + 1)
  /\ (forall s m, length s = 800 ->
        value_of (add_queue m s) = Raise (OverflowError "追加しすぎです。")
        /\ state_of (add_queue m s) = s)
  /\ (List.length ms = 800%nat -> forall m,
        value_of (add_queue m (state_of (add_queue_all ms (init vc))))
        = Raise (OverflowError "追加しすぎです。")
        /\ state_of (add_queue m (state_of (add_queue_all ms (init vc))))
           = state_of (add_queue_all ms (init vc))).
Proof.
  intros Hlen.
  assert (Hall : add_queue_all ms (init vc)
    = (Ok tt, mk vc ms (Z.of_nat (List.length ms)) false (Num 0%float),
       SetMakeGetSource <$> ms)).
  { rewrite add_queue_all_from; [reflexivity|]. unfold MAX. simpl. lia. }
  split; [done|]. split; [|split].
  - intros s m Hs. by rewrite add_queue_below.
  - intros s m Hs. by rewrite add_queue_full.
  - intros Hfull m. rewrite Hall.
    change (state_of (Ok tt, ?s', ?ev)) with s'.
    rewrite add_queue_full; [done|]. simpl. unfold MAX. lia.
Qed.

(** C8. On a non-empty queue [clear] keeps exactly the head entry and
    drops the rest; the length counter is not recomputed, it keeps
    the value it had. *)
Theorem clear_keeps_head_not_counter s h rest :
  queues s = h :: rest ->
  clear s = (Ok tt, set_queues [h] s, [])
  /\ queues (state_of (clear s)) = [h]
  /\ length (state_of (clear s)) = length s.
Proof. intros Hq. rewrite clear_unfold, Hq. done. Qed.

(** C10. [remove_queue] fails exactly when the index is out of range
    or the entry is absent; a failed call raises and changes nothing,
    and the counter goes down only with a successful removal. *)
Theorem remove_queue_failure_atomic index s :
  (remove_fails index s ->
     remove_queue index s = (Raise (remove_error index), s, []))
  /\ (forall err s' ev,
        remove_queue index s = (Raise err, s', ev) ->
        remove_fails index s /\ s' = s /\ ev = [])
  /\ (~ remove_fails index s ->
        exists qs',
          remove_queue index s
          = (Ok tt, set_length (length s - 1) (set_queues qs' s), [])
          /\ List.length qs' = (List.length (queues s) - 1)%nat).
Proof.
  split; [apply remove_queue_raises|]. split; [|apply remove_queue_returns].
  intros err s' ev Hrun.
  destruct (decide (remove_fails index s)) as [Hfail|Hok].
  - rewrite remove_queue_raises in Hrun by done. by simplify_eq.
  - destruct (remove_queue_returns index s Hok) as (qs' & Hrun' & _).
    congruence.
Qed.
End QueueClaims.

Section ShuffleClaim.
Context {V G : Type} `{!RandomGen G}.
Implicit Types (s : MusicPlayer.t V) (g : G).

Import MusicPlayer.

(** C7. [shuffle] leaves position 0 alone and only permutes the
    entries behind it; it does nothing when the length is not greater
    than 1 (read as the counter, or as the number of entries). *)
Theorem shuffle_pins_head g s :
  (exists g', value_of (shuffle g s) = Ok g')
  /\ head (queues (state_of (shuffle g s))) = head (queues s)
  /\ drop 1 (queues (state_of (shuffle g s))) ≡ₚ drop 1 (queues s)
  /\ (length s <= 1 -> state_of (shuffle g s) = s)
  /\ ((List.length (queues s) <= 1)%nat ->
        queues (state_of (shuffle g s)) = queues s).
Proof.
  rewrite shuffle_unfold.
  destruct (1 <? length s) eqn:Hlen; unfold state_of, value_of; simpl.
  - pose proof (random_shuffle_Permutation (drop 1 (queues s)) g) as Hperm.
    destruct (random_shuffle (drop 1 (queues s)) g) as [tail' g'].
    simpl in *. apply Z.ltb_lt in Hlen.
    split; [by exists g'|].
    destruct (queues s) as [|h rest]; simpl in *.
    + apply Permutation_nil_r in Hperm as ->. repeat split; auto; lia.
    + repeat split; auto; [lia|]. intros Hrest.
      destruct rest; [|simpl in Hrest; lia].
      by apply Permutation_nil_r in Hperm as ->.
  - split; [by exists g|]. repeat split; auto.
Qed.
End ShuffleClaim.

(* ================================================================== *)
(** ** Playback: [play], the completion callback, [pause], timeouts *)

Section PlaybackClaims.
Context {Source V : Type} `{!VoiceClient Source V}.
Variable get_source : MusicData -> result Source.
Implicit Types (s : MusicPlayer.t V) (m h : MusicData) (e : option exn).

Import MusicPlayer.

(** C3. On a non-empty queue the completion callback closes the head
    entry and runs [play] again. With the loop flag off the head is
    removed and the counter decremented, and when another entry
    follows (and the voice client is free, the source resolves and
    the client accepts it) that entry is started; with the loop flag
    on the queue is left as it is and the same head is started again. *)
Theorem after_advances_or_replays e s h rest :
  queues s = h :: rest ->
  (exists evs, events_of (_after get_source e s)
               = Closed h :: print_events e ++ evs)
  /\ value_of (_after get_source e s) = Ok tt
  /\ (_loop s = false ->
        queues (state_of (_after get_source e s)) = rest
        /\ length (state_of (_after get_source e s)) = length s - 1)
  /\ (_loop s = false -> rest = [] ->
        _after get_source e s
        = (Ok tt, set_length (length s - 1) (set_queues [] s),
           Closed h :: print_events e))
  /\ (forall h' rest' src vc',
        _loop s = false -> rest = h' :: rest' ->
        is_playing (voice_client s) = false ->
        get_source h' = Ok src ->
        vc_play (voice_client s) src after_callback = Ok vc' ->
        _after get_source e s
        = (Ok tt, mk vc' (h' :: rest') (length s - 1) false (Num 0%float),
           Closed h :: print_events e ++ [Started h']))
  /\ (_loop s = true ->
        queues (state_of (_after get_source e s)) = h :: rest
        /\ length (state_of (_after get_source e s)) = length s)
  /\ (forall src vc',
        _loop s = true ->
        is_playing (voice_client s) = false ->
        get_source h = Ok src ->
        vc_play (voice_client s) src after_callback = Ok vc' ->
        _after get_source e s
        = (Ok tt, mk vc' (h :: rest) (length s) true (Num 0%float),
           Closed h :: print_events e ++ [Started h])).
Proof.
  intros Hq. rewrite (after_unfold get_source e h rest s Hq).
  pose proof (play_keeps_queue get_source (before_retry s))
    as (Hqs & Hlen & _).
  split; [|split; [|split; [|split; [|split; [|split]]]]].
  - destruct (play _ _) as [[[b|err] s1] ev1]; eauto.
  - by destruct (play _ _) as [[[b|err] s1] ev1].
  - intros Hloop.
    assert (queues (before_retry s) = rest
            /\ length (before_retry s) = length s - 1) as [Hqr Hlr]
      by (unfold before_retry; by rewrite Hloop, Hq).
    rewrite Hqr in Hqs. rewrite Hlr in Hlen.
    by destruct (play _ _) as [[[b|err] s1] ev1].
  - intros Hloop ->. unfold before_retry. rewrite Hloop, Hq. simpl drop.
    rewrite play_nothing by (by left). by rewrite app_nil_r.
  - intros h' rest' src vc' Hloop -> Hidle Hsrc Hplay.
    unfold before_retry. rewrite Hloop, Hq. simpl drop.
    rewrite (play_head get_source h' rest') by done.
    unfold play_started. simpl. rewrite Hsrc, Hplay.
    destruct s; simpl in *; by subst.
  - intros Hloop.
    assert (before_retry s = s) as Hbr
      by (unfold before_retry; by rewrite Hloop).
    rewrite Hbr in *. rewrite Hq in Hqs.
    by destruct (play _ _) as [[[b|err] s1] ev1].
  - intros src vc' Hloop Hidle Hsrc Hplay.
    unfold before_retry. rewrite Hloop.
    rewrite (play_head get_source h rest) by done.
    unfold play_started. rewrite Hsrc, Hplay.
    destruct s; simpl in *; by subst.
Qed.

(** C4. [play] returns [False] and changes nothing when the queue is
    empty or the voice client is playing. Otherwise the head entry is
    marked started and the timestamp reset to 0; if the voice client
    refuses with a [ClientException] the result is [False] and the
    queue and its counter are as before; if it accepts, it now plays
    the resolved source with the completion callback, and the result
    is [True]. *)
Theorem play_outcomes s :
  (queues s = [] \/ is_playing (voice_client s) = true ->
     play get_source s = (Ok false, s, []))
  /\ (forall h rest src,
        queues s = h :: rest ->
        is_playing (voice_client s) = false ->
        get_source h = Ok src ->
        vc_play (voice_client s) src after_callback = Raise ClientException ->
        play get_source s
        = (Ok false, set_before (Num 0%float) s, [Started h])
        /\ queues (state_of (play get_source s)) = queues s
        /\ length (state_of (play get_source s)) = length s)
  /\ (forall h rest src vc',
        queues s = h :: rest ->
        is_playing (voice_client s) = false ->
        get_source h = Ok src ->
        vc_play (voice_client s) src after_callback = Ok vc' ->
        play get_source s
        = (Ok true,
           mk vc' (queues s) (length s) (_loop s) (Num 0%float),
           [Started h])).
Proof.
  split; [apply play_nothing|]. split.
  - intros h rest src Hq Hidle Hsrc Hplay.
    rewrite (play_head get_source h rest) by done.
    unfold play_started. by rewrite Hsrc, Hplay.
  - intros h rest src vc' Hq Hidle Hsrc Hplay.
    rewrite (play_head get_source h rest) by done.
    unfold play_started. by rewrite Hsrc, Hplay.
Qed.

(** C5. [pause] is meant to toggle playback and report the new state;
    as written it resumes or pauses the voice client and then raises
    [NameError] on the unbound name [queue]: the head entry is never
    marked, the timestamp is never changed and nothing is returned. *)
Theorem pause_raises_NameError s :
  pause s
  = (Raise (NameError "queue"),
     set_voice_client
       (if is_paused (voice_client s) then vc_resume (voice_client s)
        else vc_pause (voice_client s)) s,
     [])
  /\ before (state_of (pause s)) = before s.
Proof.
  unfold pause. rewrite bind_gets.
  destruct (is_paused (voice_client s)); by rewrite bind_modify.
Qed.

(** C6, amended. [check_timeout] returns [False] when the timestamp
    is 0; when it is not, it returns whether the elapsed time is
    strictly greater than the threshold, so exactly [t] seconds are
    not yet a timeout. The threshold is any [int] that is a float
    exactly ([|t| <= 2^53], the default 300 among them), so that the
    comparison of the model is the comparison of line 120. *)
Theorem check_timeout_strict s (b now : float) (t : Z) :
  exact_int t ->
  before s = Num b ->
  (PrimFloat.eqb b 0 = true ->
     check_timeout now t s = (Ok false, s, []))
  /\ (PrimFloat.eqb b 0 = false ->
        check_timeout now t s
        = (Ok (PrimFloat.ltb (float_of_int t) (PrimFloat.sub now b)), s, [])).
Proof.
  intros _ Hb. unfold check_timeout. rewrite bind_gets, Hb.
  split; by intros ->.
Qed.

(** C9. When [play] raises inside the callback, the player sends one
    message and schedules [_after(None)] once. The message is the
    fixed literal of line 63, braces included: it is the same for
    every queue and names no track. *)
Theorem after_failure_sends_fixed_text e s h rest err s1 ev1 :
  queues s = h :: rest ->
  play get_source (before_retry s) = (Raise err, s1, ev1) ->
  _after get_source e s
  = (Ok tt, s1,
     Closed h :: print_events e ++ ev1
       ++ [Send error_text; CreateTask (AfterTask None)])
  /\ error_text = error_literal.
Proof.
  intros Hq Hplay. rewrite (after_unfold get_source e h rest s Hq), Hplay.
  split; [done|]. by vm_compute.
Qed.
End PlaybackClaims.

Section CallbackInvariant.
Context {Source V : Type} `{!VoiceClient Source V}.
Variable get_source : MusicData -> result Source.
Implicit Types (s : MusicPlayer.t V) (e : option exn).

Import MusicPlayer.

(** The removal done by the completion callback keeps the counter
    consistent, as [add_queue], [remove_queue] and [shuffle] do. *)
Lemma after_consistent e s :
  length_consistent s -> length_consistent (state_of (_after get_source e s)).
Proof.
  unfold length_consistent. intros Hs.
  destruct (queues s) as [|h rest] eqn:Hq.
  { rewrite after_empty by done. unfold state_of. simpl. by rewrite Hq. }
  rewrite (after_unfold get_source e h rest s Hq).
  pose proof (play_keeps_queue get_source (before_retry s))
    as (Hqs & Hlen & _).
  assert (length (before_retry s)
          = Z.of_nat (List.length (queues (before_retry s)))) as Hbr.
  { unfold before_retry. destruct (_loop s); simpl; rewrite ?Hq.
    - exact Hs.
    - rewrite Hs. simpl. rewrite drop_0. lia. }
  rewrite <- Hqs, <- Hlen in Hbr.
  by destruct (play _ _) as [[[b|err] s1] ev1].
Qed.

(** [clear] keeps the counter right only on queues of at most one
    entry. *)
Lemma clear_consistent_iff s :
  length_consistent s ->
  length_consistent (state_of (clear s)) <-> length s <= 1.
Proof.
  unfold length_consistent. intros Hs. rewrite clear_unfold.
  unfold state_of. simpl.
  destruct (queues s) as [|h [|h' rest]]; simpl in *; lia.
Qed.
End CallbackInvariant.

(* ================================================================== *)
(** ** Concrete runs *)

Lemma clear_leaves_counter_stale_witness :
  length_consistent two_tracks
  /\ 1 < MusicPlayer.length two_tracks
  /\ MusicPlayer.length (state_of (MusicPlayer.clear two_tracks)) = 2
  /\ List.length (MusicPlayer.queues (state_of (MusicPlayer.clear two_tracks)))
     = 1%nat
  /\ ~ length_consistent (state_of (MusicPlayer.clear two_tracks)).
Proof.
  assert (H1 : length_consistent two_tracks) by reflexivity.
  assert (H2 : 1 < MusicPlayer.length two_tracks) by (simpl; lia).
  split; [exact H1|]. split; [exact H2|].
  exact (clear_leaves_counter_stale two_tracks H1 H2).
Defined.

Lemma add_queue_capacity_witness :
  (List.length [song1; song2; song3] <= 800)%nat
  /\ MusicPlayer.add_queue_all [song1; song2; song3] (MusicPlayer.init Idle)
     = (Ok tt, MusicPlayer.mk Idle [song1; song2; song3] 3 false (Num 0%float),
        [SetMakeGetSource song1; SetMakeGetSource song2; SetMakeGetSource song3])
  /\ (List.length (replicate 800 song1) <= 800)%nat
  /\ value_of (MusicPlayer.add_queue song2
       (state_of (MusicPlayer.add_queue_all (replicate 800 song1)
                    (MusicPlayer.init Idle))))
     = Raise (OverflowError "追加しすぎです。")
  /\ state_of (MusicPlayer.add_queue song2
       (state_of (MusicPlayer.add_queue_all (replicate 800 song1)
                    (MusicPlayer.init Idle))))
     = state_of (MusicPlayer.add_queue_all (replicate 800 song1)
                   (MusicPlayer.init Idle)).
Proof.
  assert (H3 : (List.length [song1; song2; song3] <= 800)%nat) by (simpl; lia).
  assert (H800 : List.length (replicate 800 song1) = 800%nat)
    by (vm_compute; reflexivity).
  assert (Hle : (List.length (replicate 800 song1) <= 800)%nat)
    by (rewrite H800; lia).
  split; [exact H3|].
  split; [exact (proj1 (add_queue_capacity Idle [song1; song2; song3] H3))|].
  split; [exact Hle|].
  destruct (add_queue_capacity Idle (replicate 800 song1) Hle)
    as (_ & _ & _ & Hfull).
  exact (Hfull H800 song2).
Defined.

Lemma shuffle_pins_head_witness :
  MusicPlayer.queues
    (state_of (MusicPlayer.shuffle [0%nat; 0%nat] (three_tracks false)))
  = [song1; song3; song2]
  /\ head (MusicPlayer.queues
       (state_of (MusicPlayer.shuffle [0%nat; 0%nat] (three_tracks false))))
     = Some song1
  /\ drop 1 (MusicPlayer.queues
       (state_of (MusicPlayer.shuffle [0%nat; 0%nat] (three_tracks false))))
     ≡ₚ [song2; song3].
Proof.
  split; [reflexivity|].
  destruct (shuffle_pins_head [0%nat; 0%nat] (three_tracks false))
    as (_ & Hhead & Htail & _).
  split; [exact Hhead | exact Htail].
Defined.

Lemma clear_keeps_head_not_counter_witness :
  MusicPlayer.queues two_tracks = song1 :: [song2]
  /\ MusicPlayer.queues (state_of (MusicPlayer.clear two_tracks)) = [song1]
  /\ MusicPlayer.length (state_of (MusicPlayer.clear two_tracks)) = 2.
Proof.
  split; [reflexivity|].
  destruct (clear_keeps_head_not_counter two_tracks song1 [song2] eq_refl)
    as (_ & Hq & Hlen).
  split; [exact Hq | exact Hlen].
Defined.

Lemma remove_queue_failure_atomic_witness :
  remove_fails (inl 2) two_tracks
  /\ MusicPlayer.remove_queue (inl 2) two_tracks
     = (Raise IndexError, two_tracks, [])
  /\ remove_fails (inr song3) two_tracks
  /\ MusicPlayer.remove_queue (inr song3) two_tracks
     = (Raise ValueError, two_tracks, [])
  /\ ~ remove_fails (inl (-1)) two_tracks
  /\ value_of (MusicPlayer.remove_queue (inl (-1)) two_tracks) = Ok tt.
Proof.
  assert (H2 : remove_fails (inl 2) two_tracks) by (simpl; lia).
  assert (H3 : remove_fails (inr song3) two_tracks).
  { simpl. intros Hin. apply list_elem_of_In in Hin. simpl in Hin.
    destruct Hin as [H|[H|[]]]; discriminate H. }
  assert (Hok : ~ remove_fails (inl (-1)) two_tracks) by (simpl; lia).
  split; [exact H2|].
  split; [exact (proj1 (remove_queue_failure_atomic (inl 2) two_tracks) H2)|].
  split; [exact H3|].
  split; [exact (proj1 (remove_queue_failure_atomic (inr song3) two_tracks) H3)|].
  split; [exact Hok|].
  destruct (proj2 (proj2 (remove_queue_failure_atomic (inl (-1)) two_tracks)) Hok)
    as (qs' & Hrun & _).
  rewrite Hrun. reflexivity.
Defined.

Lemma after_advances_or_replays_witness :
  MusicPlayer.queues (three_tracks false) = song1 :: [song2; song3]
  /\ MusicPlayer._after resolve_all None (three_tracks false)
     = (Ok tt,
        MusicPlayer.mk (Playing (url song2) after_callback) [song2; song3] 2
          false (Num 0%float),
        [Closed song1; Started song2])
  /\ MusicPlayer._after resolve_all None (three_tracks true)
     = (Ok tt,
        MusicPlayer.mk (Playing (url song1) after_callback)
          [song1; song2; song3] 3 true (Num 0%float),
        [Closed song1; Started song1]).
Proof.
  split; [reflexivity|]. split.
  - destruct (after_advances_or_replays resolve_all None (three_tracks false)
                song1 [song2; song3] eq_refl) as (_ & _ & _ & _ & Hnext & _).
    exact (Hnext song2 [song3] (url song2) (Playing (url song2) after_callback)
             eq_refl eq_refl eq_refl eq_refl eq_refl).
  - destruct (after_advances_or_replays resolve_all None (three_tracks true)
                song1 [song2; song3] eq_refl) as (_ & _ & _ & _ & _ & _ & Hsame).
    exact (Hsame (url song1) (Playing (url song1) after_callback)
             eq_refl eq_refl eq_refl eq_refl).
Defined.

Lemma play_outcomes_witness :
  MusicPlayer.play resolve_all (MusicPlayer.init Idle)
  = (Ok false, MusicPlayer.init Idle, [])
  /\ MusicPlayer.play resolve_all
       (MusicPlayer.mk Disconnected [song1; song2] 2 false (Num 7%float))
     = (Ok false,
        MusicPlayer.mk Disconnected [song1; song2] 2 false (Num 0%float),
        [Started song1])
  /\ MusicPlayer.play resolve_all two_tracks
     = (Ok true,
        MusicPlayer.mk (Playing (url song1) after_callback) [song1; song2] 2
          false (Num 0%float),
        [Started song1]).
Proof.
  split; [|split].
  - exact (proj1 (play_outcomes resolve_all (MusicPlayer.init Idle))
             (or_introl eq_refl)).
  - destruct (play_outcomes resolve_all
                (MusicPlayer.mk Disconnected [song1; song2] 2 false
                   (Num 7%float))) as (_ & Hrej & _).
    exact (proj1 (Hrej song1 [song2] (url song1)
                    eq_refl eq_refl eq_refl eq_refl)).
  - destruct (play_outcomes resolve_all two_tracks) as (_ & _ & Hacc).
    exact (Hacc song1 [song2] (url song1) (Playing (url song1) after_callback)
             eq_refl eq_refl eq_refl eq_refl).
Defined.

Lemma check_timeout_strict_witness :
  exact_int 300
  /\ MusicPlayer.before skipped_at_1000 = Num 1000%float
  /\ PrimFloat.eqb 1000 0 = false
  /\ MusicPlayer.check_timeout 1300.5%float 300 skipped_at_1000
     = (Ok true, skipped_at_1000, [])
  /\ MusicPlayer.check_timeout 1300%float 300 skipped_at_1000
     = (Ok false, skipped_at_1000, []).
Proof.
  assert (H300 : exact_int 300) by (unfold exact_int; lia).
  split; [exact H300|]. split; [reflexivity|]. split; [reflexivity|]. split.
  - exact (proj2 (check_timeout_strict skipped_at_1000 1000%float 1300.5%float
                    300 H300 eq_refl) eq_refl).
  - exact (proj2 (check_timeout_strict skipped_at_1000 1000%float 1300%float
                    300 H300 eq_refl) eq_refl).
Defined.

(** C6, as stated, fails on the boundary: 300 seconds after a skip at
    time 1000 the elapsed time is at least 300, yet the answer is
    [False]. *)
Lemma check_timeout_at_threshold :
  PrimFloat.eqb 1000 0 = false
  /\ PrimFloat.leb 300 (PrimFloat.sub 1300 1000) = true
  /\ value_of (MusicPlayer.check_timeout 1300%float 300 skipped_at_1000)
     = Ok false.
Proof. repeat split. Qed.

Lemma after_failure_sends_fixed_text_witness :
  MusicPlayer.queues (three_tracks false) = song1 :: [song2; song3]
  /\ MusicPlayer.play resolve_but_song2 (before_retry (three_tracks false))
     = (Raise (OtherError "DownloadError"),
        MusicPlayer.mk Idle [song2; song3] 2 false (Num 0%float),
        [Started song2])
  /\ MusicPlayer._after resolve_but_song2 None (three_tracks false)
     = (Ok tt, MusicPlayer.mk Idle [song2; song3] 2 false (Num 0%float),
        [Closed song1; Started song2; Send error_text;
         CreateTask (AfterTask None)]).
Proof.
  split; [reflexivity|]. split; [reflexivity|].
  exact (proj1 (after_failure_sends_fixed_text resolve_but_song2 None
                  (three_tracks false) song1 [song2; song3]
                  (OtherError "DownloadError")
                  (MusicPlayer.mk Idle [song2; song3] 2 false (Num 0%float))
                  [Started song2] eq_refl eq_refl)).
Defined.

(** The text that is sent does not contain the title of the track that
    failed, and is not the message that would name it. *)
Lemma error_text_names_no_track :
  is_substring (title song2) error_text = false
  /\ is_substring (title song2) (error_message_spec song2) = true
  /\ error_text <> error_message_spec song2.
Proof. repeat split. by vm_compute. Qed.

(** [pause] on a playing and on a paused client: the client is toggled,
    then the call raises. *)
Lemma pause_run :
  MusicPlayer.pause
    (MusicPlayer.mk (Playing "a" after_callback) [song1] 1 false (Num 0%float))
  = (Raise (NameError "queue"),
     MusicPlayer.mk (Paused "a" after_callback) [song1] 1 false (Num 0%float),
     [])
  /\ MusicPlayer.pause
       (MusicPlayer.mk (Paused "a" after_callback) [song1] 1 false
          (Num 9%float))
     = (Raise (NameError "queue"),
        MusicPlayer.mk (Playing "a" after_callback) [song1] 1 false
          (Num 9%float),
        []).
Proof. split; reflexivity. Qed.

(* ================================================================== *)
(** ** Call sequences on the queue *)

Lemma py_index_last n : py_index (S n) (-1) = Some n.
Proof.
  unfold py_index. cbv zeta. change (-1 <? 0) with true. cbv iota.
  destruct (_ && _) eqn:Hin.
  - f_equal. lia.
  - apply andb_false_iff in Hin as [H|H];
      [apply Z.leb_gt in H | apply Z.ltb_ge in H]; lia.
Qed.

Lemma list_remove_app_new `{EqDecision A} (x : A) l :
  x ∉ l -> list_remove x (l ++ [x]) = Some l.
Proof.
  induction l as [|y l IH]; simpl; intros Hx.
  - by rewrite decide_True.
  - apply not_elem_of_cons in Hx as [Hne Hx].
    rewrite decide_False by done. by rewrite IH.
Qed.

Section CallSequences.
Context {Source V G : Type} `{!VoiceClient Source V} `{!RandomGen G}.
Variable get_source : MusicData -> result Source.
Implicit Types (s : MusicPlayer.t V) (m h : MusicData) (e : option exn).

Import MusicPlayer.

Lemma remove_queue_unfold index s :
  remove_queue index s
  = match match index with
          | inl i => py_del (queues s) i
          | inr m => py_remove (queues s) m
          end with
    | Ok qs' => (Ok tt, set_length (length s - 1) (set_queues qs' s), [])
    | Raise err => (Raise err, s, [])
    end.
Proof.
  unfold remove_queue. py_unfold.
  destruct index as [i|m]; simpl.
  - by destruct (py_del (queues s) i).
  - by destruct (py_remove (queues s) m).
Qed.

Lemma loop_unfold s :
  loop s = (Ok (negb (_loop s)), set_loop (negb (_loop s)) s, []).
Proof. unfold loop. by rewrite bind_gets, bind_modify. Qed.

Lemma skip_unfold now s :
  skip now s
  = (Ok tt, set_before (Num now) (set_voice_client (vc_stop (voice_client s)) s),
     []).
Proof. unfold skip. by rewrite bind_gets, bind_modify. Qed.

Lemma pause_keeps_queue s :
  queues (state_of (pause s)) = queues s
  /\ length (state_of (pause s)) = length s
  /\ before (state_of (pause s)) = before s.
Proof.
  unfold pause. rewrite bind_gets.
  destruct (is_paused (voice_client s)); by rewrite bind_modify.
Qed.

Lemma read_queue_keeps_state i s : state_of (read_queue i s) = s.
Proof.
  unfold read_queue. rewrite bind_gets. unfold lift, state_of. done.
Qed.

Lemma check_timeout_keeps_state now t s :
  state_of (check_timeout now t s) = s.
Proof.
  unfold check_timeout. rewrite bind_gets.
  destruct (before s) as [b|]; [|done].
  by destruct (PrimFloat.eqb b 0).
Qed.

(** How one call can change the number of entries and the counter:
    both stay, both go up by one (below [MAX]), both go down by one,
    or ([clear] only) entries go and the counter stays. *)
Lemma run_op_queue (o : op G) s :
  (List.length (queues (run_op get_source o s)) = List.length (queues s)
   /\ length (run_op get_source o s) = length s)
  \/ (List.length (queues (run_op get_source o s)) = S (List.length (queues s))
      /\ length (run_op get_source o s) = length s + 1
      /\ length s <> MAX)
  \/ (S (List.length (queues (run_op get_source o s))) = List.length (queues s)
      /\ length (run_op get_source o s) = length s - 1)
  \/ (is_OpClear o = true
      /\ (List.length (queues (run_op get_source o s))
          <= List.length (queues s))%nat
      /\ length (run_op get_source o s) = length s).
Proof.
  destruct o as [m|index|i|e| | |now| | |g|now t];
    cbn [run_op is_OpClear].
  - destruct (decide (length s = MAX)) as [Hfull|Hroom].
    + left. by rewrite add_queue_full.
    + right; left. rewrite add_queue_below by done. unfold state_of. simpl.
      rewrite length_app. simpl. split; [lia | done].
  - destruct (decide (remove_fails index s)) as [Hfail|Hok].
    + left. by rewrite remove_queue_raises.
    + right; right; left.
      destruct (remove_queue_returns index s Hok) as (qs' & -> & Hlen).
      unfold state_of. simpl. split; [|done]. rewrite Hlen.
      assert (List.length (queues s) <> 0%nat); [|lia].
      intros Hnil. apply Hok. apply nil_length_inv in Hnil.
      destruct index as [i|m]; simpl; rewrite Hnil; simpl;
        [lia | apply not_elem_of_nil].
  - left. by rewrite read_queue_keeps_state.
  - destruct (queues s) as [|h rest] eqn:Hq.
    { left. rewrite after_empty by done. unfold state_of. simpl.
      by rewrite Hq. }
    pose proof (play_keeps_queue get_source (before_retry s))
      as (Hqs & Hlen & _).
    assert (state_of (_after get_source e s)
            = state_of (play get_source (before_retry s))) as ->.
    { rewrite (after_unfold get_source e h rest s Hq).
      by destruct (play _ _) as [[[b|err] s1] ev1]. }
    rewrite Hqs, Hlen. unfold before_retry.
    destruct (_loop s); [left; by rewrite Hq|].
    right; right; left. simpl. rewrite Hq. simpl. by rewrite drop_0.
  - left. by destruct (play_keeps_queue get_source s) as (-> & -> & _).
  - right; right; right. rewrite clear_unfold. unfold state_of. simpl.
    split; [done|]. split; [|done]. rewrite length_take. lia.
  - left. by rewrite skip_unfold.
  - left. by destruct (pause_keeps_queue s) as (-> & -> & _).
  - left. by rewrite loop_unfold.
  - left. rewrite shuffle_unfold. destruct (1 <? length s); [|done].
    unfold state_of. simpl. split; [|done]. rewrite length_app.
    rewrite (Permutation_length (random_shuffle_Permutation _ g)).
    rewrite <- length_app. by rewrite take_drop.
  - left. by rewrite check_timeout_keeps_state.
Qed.

Lemma run_op_within_capacity (o : op G) s :
  within_capacity s -> within_capacity (run_op get_source o s).
Proof.
  unfold within_capacity. intros [Hle Hmax].
  destruct (run_op_queue o s)
    as [[Hq Hl]|[(Hq & Hl & Hroom)|[[Hq Hl]|(_ & Hq & Hl)]]];
    rewrite Hl; lia.
Qed.

Lemma run_op_consistent (o : op G) s :
  is_OpClear o = false ->
  length_consistent s -> length_consistent (run_op get_source o s).
Proof.
  unfold length_consistent. intros Hclear Hs.
  destruct (run_op_queue o s)
    as [[Hq Hl]|[(Hq & Hl & Hroom)|[[Hq Hl]|(Hc & _)]]];
    [rewrite Hl; lia .. | congruence].
Qed.

(** X1. [loop] flips the flag and returns the new value; after [n]
    calls the flag has changed exactly when [n] is odd, and nothing
    else in the player has. *)
Theorem loop_parity n s :
  value_of (loop s) = Ok (negb (_loop s))
  /\ Nat.iter n (fun s => state_of (loop s)) s
     = set_loop (xorb (_loop s) (Nat.odd n)) s.
Proof.
  split; [by rewrite loop_unfold|].
  induction n as [|n IH].
  - simpl. rewrite xorb_false_r. by destruct s.
  - simpl Nat.iter. rewrite IH, loop_unfold. unfold state_of. simpl.
    rewrite Nat.odd_succ, <- Nat.negb_odd. unfold set_loop. simpl.
    by rewrite negb_xorb_r.
Qed.

(** X2. After a successful [add_queue], [read_queue(-1)] returns the
    track just added, [remove_queue(-1)] undoes the call, and so does
    [remove_queue(music)] when the track was not queued before. *)
Theorem add_then_read_remove m s :
  length s <> MAX ->
  read_queue (-1) (state_of (add_queue m s))
  = (Ok m, state_of (add_queue m s), [])
  /\ remove_queue (inl (-1)) (state_of (add_queue m s)) = (Ok tt, s, [])
  /\ (m ∉ queues s ->
      remove_queue (inr m) (state_of (add_queue m s)) = (Ok tt, s, [])).
Proof.
  intros Hroom. rewrite add_queue_below by done.
  change (state_of (Ok tt, ?s', ?ev)) with s'.
  assert (Hback : forall qs,
    set_length (length s + 1 - 1)
      (set_queues qs
         (set_length (length s + 1) (set_queues (queues s ++ [m]) s)))
    = set_queues qs s).
  { intros qs. destruct s as [vc q len lp bf]. unfold set_length, set_queues.
    simpl. f_equal. lia. }
  split; [|split].
  - unfold read_queue. rewrite bind_gets. simpl queues.
    unfold lift, py_getitem. rewrite length_app, Nat.add_1_r, py_index_last.
    by rewrite lookup_app_r, Nat.sub_diag by done.
  - rewrite remove_queue_unfold. simpl queues.
    unfold py_del. rewrite length_app, Nat.add_1_r, py_index_last.
    rewrite delete_take_drop, take_app_length.
    rewrite drop_ge by (rewrite length_app; simpl; lia).
    rewrite app_nil_r. rewrite Hback. by rewrite set_queues_same.
  - intros Hnew. rewrite remove_queue_unfold. simpl queues.
    unfold py_remove. rewrite list_remove_app_new by done.
    rewrite Hback. by rewrite set_queues_same.
Qed.

(** X3. Whatever calls are made on a new player, in whatever order and
    whether they return or raise, the queue never holds more entries
    than the counter says and the counter never passes 800. *)
Theorem run_ops_within_capacity (ops : list (op G)) (vc : V) :
  within_capacity (run_ops get_source ops (init vc))
  /\ (List.length (queues (run_ops get_source ops (init vc))) <= 800)%nat.
Proof.
  assert (Hall : forall s, within_capacity s ->
            within_capacity (run_ops get_source ops s)).
  { induction ops as [|o ops IH]; intros s Hs; [done|].
    simpl. apply IH. by apply run_op_within_capacity. }
  assert (Hinit : within_capacity (init vc)) by (unfold within_capacity, MAX; simpl; lia).
  specialize (Hall _ Hinit). split; [done|].
  destruct Hall as [Hle Hmax]. unfold MAX in Hmax. lia.
Qed.

(** X4. As long as [clear] is not among the calls, the counter of a
    player equals the number of entries after every call sequence. *)
Theorem run_ops_consistent (ops : list (op G)) (vc : V) :
  forallb (fun o => negb (is_OpClear o)) ops = true ->
  length_consistent (run_ops get_source ops (init vc)).
Proof.
  assert (Hall : forall s, length_consistent s ->
            forallb (fun o => negb (is_OpClear o)) ops = true ->
            length_consistent (run_ops get_source ops s)).
  { induction ops as [|o ops IH]; intros s Hs Hops; [done|].
    simpl in Hops. apply andb_true_iff in Hops as [Ho Hops].
    simpl. apply IH; [|done]. apply run_op_consistent; [|done].
    by apply negb_true_iff. }
  intros Hops. by apply Hall.
Qed.
End CallSequences.

(* ================================================================== *)
(** ** Playback over several calls *)

Lemma float_zero_eqb : PrimFloat.eqb 0 0 = true.
Proof. reflexivity. Qed.

Lemma py_getitem_in_range {A} (l : list A) i x :
  py_getitem l i = Ok x ->
  (0 <= i < Z.of_nat (List.length l) /\ l !! Z.to_nat i = Some x)
  \/ (- Z.of_nat (List.length l) <= i < 0
      /\ l !! Z.to_nat (i + Z.of_nat (List.length l)) = Some x).
Proof.
  unfold py_getitem, py_index. cbv zeta.
  destruct (i <? 0) eqn:Hneg;
    [apply Z.ltb_lt in Hneg | apply Z.ltb_ge in Hneg];
    destruct (_ && _) eqn:Hin; try done;
    apply andb_true_iff in Hin as [H0 Hn];
    apply Z.leb_le in H0; apply Z.ltb_lt in Hn;
    destruct (l !! _) as [y|] eqn:Hy; try done; intros [= ->].
  - right. split; [lia | done].
  - left. split; [lia | done].
Qed.

Lemma py_getitem_out_of_range {A} (l : list A) i :
  ~ (- Z.of_nat (List.length l) <= i < Z.of_nat (List.length l)) ->
  py_getitem l i = Raise IndexError.
Proof.
  intros Hout. unfold py_getitem. by apply py_index_None in Hout as ->.
Qed.

Section PlaybackSequences.
Context {Source V : Type} `{!VoiceClient Source V}.
Variable get_source : MusicData -> result Source.
Implicit Types (s : MusicPlayer.t V) (m h : MusicData) (e : option exn).

Import MusicPlayer.

Lemma play_started_before h s :
  before (state_of (play_started get_source h s)) = Num 0%float.
Proof.
  unfold play_started.
  destruct (get_source h) as [src|err].
  - destruct (vc_play _ src _) as [vc'|err]; [done|].
    by destruct (is_ClientException err).
  - by destruct (is_ClientException err).
Qed.

(** [play] leaves at most one event, the start mark of the head. *)
Lemma play_events s :
  events_of (play get_source s) = []
  \/ exists h, events_of (play get_source s) = [Started h].
Proof.
  destruct (queues s) as [|h rest] eqn:Hq.
  { left. by rewrite play_nothing by auto. }
  destruct (is_playing (voice_client s)) eqn:Hp.
  { left. by rewrite play_nothing by auto. }
  right. exists h. rewrite (play_head get_source h rest) by done.
  unfold play_started.
  destruct (get_source h) as [src|err].
  - destruct (vc_play _ src _) as [vc'|err]; [done|].
    by destruct (is_ClientException err).
  - by destruct (is_ClientException err).
Qed.

(** One run of the callback when the source of the track to play
    cannot be resolved. *)
Lemma after_resolver_fails e s h rest h' err :
  queues s = h :: rest ->
  head (queues (before_retry s)) = Some h' ->
  is_playing (voice_client s) = false ->
  get_source h' = Raise err ->
  is_ClientException err = false ->
  _after get_source e s
  = (Ok tt, set_before (Num 0%float) (before_retry s),
     Closed h :: print_events e ++ failed_attempt h').
Proof.
  intros Hq Hhead Hidle Hsrc Hother.
  rewrite (after_unfold get_source e h rest s Hq).
  destruct (queues (before_retry s)) as [|h0 rest'] eqn:Hq'; [done|].
  simpl in Hhead. simplify_eq.
  assert (is_playing (voice_client (before_retry s)) = false) as Hidle'.
  { unfold before_retry. by destruct (_loop s). }
  rewrite (play_head get_source h' rest') by done.
  unfold play_started. by rewrite Hsrc, Hother.
Qed.

Lemma created_failed_attempt e h h' :
  created (Closed h :: print_events e ++ failed_attempt h') = [AfterTask None].
Proof. by destruct e. Qed.

(** X5. Once [play] gets past its guard (a track is queued and the
    voice client is not playing) the timestamp is 0 afterwards whether
    the start succeeded, was refused or raised, so [check_timeout]
    answers [False] at any later time; when the guard stops [play],
    the timestamp is the one from before. *)
Theorem play_resets_idle_clock s now t :
  (queues s <> [] -> is_playing (voice_client s) = false ->
   before (state_of (play get_source s)) = Num 0%float
   /\ value_of (check_timeout now t (state_of (play get_source s)))
      = Ok false)
  /\ (queues s = [] \/ is_playing (voice_client s) = true ->
      before (state_of (play get_source s)) = before s).
Proof.
  split.
  - intros Hq Hidle. destruct (queues s) as [|h rest] eqn:Hqs; [done|].
    rewrite (play_head get_source h rest) by done.
    pose proof (play_started_before h s) as Hb. split; [done|].
    unfold check_timeout. rewrite bind_gets, Hb.
    by rewrite float_zero_eqb.
  - intros Hguard. by rewrite play_nothing.
Qed.

(** X6. Skipping the only track of a queue that does not loop: when
    the callback has run, the queue is empty, the timestamp is still
    the time of the skip, and [check_timeout] tells whether more than
    [t] seconds have passed since then, for every threshold that is a
    float exactly ([|t| <= 2^53]). *)
Theorem skip_last_track_starts_idle_clock e s h (now0 now : float) (t : Z) :
  queues s = [h] ->
  _loop s = false ->
  PrimFloat.eqb now0 0 = false ->
  _after get_source e (state_of (skip now0 s))
  = (Ok tt,
     mk (vc_stop (voice_client s)) [] (length s - 1) false (Num now0),
     Closed h :: print_events e)
  /\ (exact_int t ->
      value_of (check_timeout now t
        (state_of (_after get_source e (state_of (skip now0 s)))))
      = Ok (PrimFloat.ltb (float_of_int t) (PrimFloat.sub now now0))).
Proof.
  intros Hq Hloop Hnow0. rewrite skip_unfold.
  change (state_of (Ok tt, ?s', ?ev)) with s'.
  set (s1 := set_before _ _).
  assert (Hq1 : queues s1 = [h]) by done.
  assert (Hrun : _after get_source e s1
    = (Ok tt,
       mk (vc_stop (voice_client s)) [] (length s - 1) false (Num now0),
       Closed h :: print_events e)).
  { rewrite (after_unfold get_source e h [] s1 Hq1).
    unfold before_retry. simpl _loop. rewrite Hloop, Hq1. simpl drop.
    rewrite play_nothing by (by left). rewrite app_nil_r.
    unfold s1, set_length, set_queues, set_before, set_voice_client. simpl.
    by rewrite Hloop. }
  split; [done|]. intros _. rewrite Hrun.
  change (state_of (Ok tt, ?s', ?ev)) with s'.
  unfold check_timeout. rewrite bind_gets. cbn [before].
  by rewrite Hnow0.
Qed.

(** X7. With the loop flag set and a head track whose source cannot
    be resolved, the callback never gets anywhere: every run closes
    the head, marks it started, sends the message and schedules the
    next run. After any number of runs the queue is as it was and one
    task is still pending. *)
Theorem looping_retry_never_ends n e s h rest err :
  queues s = h :: rest ->
  _loop s = true ->
  is_playing (voice_client s) = false ->
  get_source h = Raise err ->
  is_ClientException err = false ->
  run_loop get_source (S n) [AfterTask e] s
  = (set_before (Num 0%float) s,
     (Closed h :: print_events e ++ failed_attempt h)
       ++ concat (replicate n (Closed h :: failed_attempt h)),
     [AfterTask None]).
Proof.
  revert e s. induction n as [|n IH]; intros e s Hq Hloop Hidle Hsrc Hother.
  - simpl run_loop.
    rewrite (after_resolver_fails e s h rest h err) by
      (try done; unfold before_retry; by rewrite Hloop, Hq).
    unfold before_retry. rewrite Hloop. simpl. by destruct e.
  - change (run_loop get_source (S (S n)) [AfterTask e] s)
      with (let '(_, s1, ev1) := _after get_source e s in
            let '(s2, ev2, waiting) :=
              run_loop get_source (S n) ([] ++ created ev1) s1 in
            (s2, ev1 ++ ev2, waiting)).
    rewrite (after_resolver_fails e s h rest h err) by
      (try done; unfold before_retry; by rewrite Hloop, Hq).
    rewrite created_failed_attempt. simpl app at 1.
    unfold before_retry. rewrite Hloop.
    rewrite (IH None (set_before (Num 0%float) s)) by done.
    simpl print_events. simpl replicate. simpl concat.
    by destruct s.
Qed.

(** X8. Without the loop flag, a track whose source cannot be
    resolved costs one message and one retry: the first run of the
    callback removes the finished head and fails on the next track,
    the retry removes that track too. When nothing is queued behind
    it, the retry ends with an empty queue and no task pending. *)
Theorem retry_skips_failed_track e s h h' rest err :
  queues s = h :: h' :: rest ->
  _loop s = false ->
  is_playing (voice_client s) = false ->
  get_source h' = Raise err ->
  is_ClientException err = false ->
  run_loop get_source 1 [AfterTask e] s
  = (mk (voice_client s) (h' :: rest) (length s - 1) false (Num 0%float),
     Closed h :: print_events e ++ failed_attempt h',
     [AfterTask None])
  /\ queues (run_loop get_source 2 [AfterTask e] s).1.1 = rest
  /\ length (run_loop get_source 2 [AfterTask e] s).1.1 = length s - 2
  /\ (exists evs,
        (run_loop get_source 2 [AfterTask e] s).1.2
        = (Closed h :: print_events e ++ failed_attempt h')
            ++ Closed h' :: evs)
  /\ (rest = [] ->
      run_loop get_source 2 [AfterTask e] s
      = (mk (voice_client s) [] (length s - 2) false (Num 0%float),
         (Closed h :: print_events e ++ failed_attempt h') ++ [Closed h'],
         [])).
Proof.
  intros Hq Hloop Hidle Hsrc Hother.
  assert (Hfirst : _after get_source e s
    = (Ok tt,
       mk (voice_client s) (h' :: rest) (length s - 1) false (Num 0%float),
       Closed h :: print_events e ++ failed_attempt h')).
  { rewrite (after_resolver_fails e s h (h' :: rest) h' err) by
      (try done; unfold before_retry; by rewrite Hloop, Hq).
    unfold before_retry. rewrite Hloop, Hq. simpl drop.
    unfold set_before, set_length, set_queues. simpl. by rewrite Hloop. }
  set (s1 := mk (voice_client s) (h' :: rest) (length s - 1) false
               (Num 0%float)) in *.
  assert (Hq1 : queues s1 = h' :: rest) by done.
  pose proof (after_unfold get_source None h' rest s1 Hq1) as Hsecond.
  assert (Hbr : before_retry s1
    = mk (voice_client s) rest (length s - 2) false (Num 0%float)).
  { unfold before_retry, s1, set_length, set_queues. simpl. rewrite drop_0.
    f_equal. lia. }
  rewrite Hbr in Hsecond.
  pose proof (play_keeps_queue get_source
    (mk (voice_client s) rest (length s - 2) false (Num 0%float)))
    as (Hqs & Hlen & _).
  assert (Hone : run_loop get_source 1 [AfterTask e] s
    = (s1, Closed h :: print_events e ++ failed_attempt h', [AfterTask None])).
  { simpl run_loop. rewrite Hfirst. rewrite created_failed_attempt.
    simpl. by rewrite app_nil_r. }
  assert (Htwo : run_loop get_source 2 [AfterTask e] s
    = let '(_, s2, ev2) := _after get_source None s1 in
      (s2, (Closed h :: print_events e ++ failed_attempt h')
             ++ ev2 ++ [], created ev2)).
  { change (run_loop get_source 2 [AfterTask e] s)
      with (let '(_, s1', ev1) := _after get_source e s in
            let '(s2, ev2, waiting) :=
              run_loop get_source 1 ([] ++ created ev1) s1' in
            (s2, ev1 ++ ev2, waiting)).
    rewrite Hfirst, created_failed_attempt. simpl app at 1.
    simpl run_loop.
    by destruct (_after get_source None s1) as [[r2 s2] ev2]. }
  split; [done|]. rewrite Htwo, Hsecond. simpl print_events.
  split; [|split; [|split]].
  - by destruct (play _ _) as [[[b|err'] s3] ev3].
  - by destruct (play _ _) as [[[b|err'] s3] ev3].
  - destruct (play _ _) as [[[b|err'] s3] ev3]; simpl;
      rewrite app_nil_r; eauto.
  - intros ->. rewrite play_nothing by (by left). done.
Qed.

(** X9. Removing the entry at position 0 while it plays does not stop
    it, and when its playback ends the callback works on the entry
    that moved up: that entry is closed and removed without having
    been played, and the entry that was playing is never closed. *)
Theorem remove_playing_then_callback e s a b rest :
  queues s = a :: b :: rest ->
  _loop s = false ->
  remove_queue (inl 0) s
  = (Ok tt, mk (voice_client s) (b :: rest) (length s - 1) false (before s), [])
  /\ queues (state_of (_after get_source e
               (state_of (remove_queue (inl 0) s)))) = rest
  /\ length (state_of (_after get_source e
               (state_of (remove_queue (inl 0) s)))) = length s - 2
  /\ (exists evs,
        events_of (_after get_source e (state_of (remove_queue (inl 0) s)))
        = Closed b :: print_events e ++ evs
        /\ forall x, Closed x ∉ evs).
Proof.
  intros Hq Hloop.
  assert (Hrem : remove_queue (inl 0) s
    = (Ok tt, mk (voice_client s) (b :: rest) (length s - 1) false (before s),
       [])).
  { rewrite (remove_queue_head a (b :: rest)) by done.
    unfold set_length, set_queues. simpl. by rewrite Hloop. }
  split; [done|]. rewrite Hrem.
  change (state_of (Ok tt, ?s', ?ev)) with s'.
  set (s1 := mk _ _ _ _ _).
  assert (Hq1 : queues s1 = b :: rest) by done.
  rewrite (after_unfold get_source e b rest s1 Hq1).
  assert (Hbr : before_retry s1
    = mk (voice_client s) rest (length s - 2) false (before s)).
  { unfold before_retry, s1, set_length, set_queues. simpl. rewrite drop_0.
    f_equal. lia. }
  rewrite Hbr.
  pose proof (play_keeps_queue get_source
    (mk (voice_client s) rest (length s - 2) false (before s)))
    as (Hqs & Hlen & _).
  pose proof (play_events
    (mk (voice_client s) rest (length s - 2) false (before s))) as Hev.
  destruct (play _ _) as [[[ok|err'] s3] ev3];
    unfold state_of, events_of in *; simpl in *.
  - repeat split; try done. exists ev3. split; [done|].
    intros x Hx. destruct Hev as [->|[h' ->]].
    + by apply elem_of_nil in Hx.
    + apply list_elem_of_singleton in Hx. discriminate Hx.
  - repeat split; try done. eexists. split; [done|].
    intros x Hx. apply elem_of_app in Hx as [Hx|Hx].
    + destruct Hev as [->|[h' ->]].
      * by apply elem_of_nil in Hx.
      * apply list_elem_of_singleton in Hx. discriminate Hx.
    + apply elem_of_cons in Hx as [Hx|Hx]; [discriminate Hx|].
      apply list_elem_of_singleton in Hx. discriminate Hx.
Qed.
End PlaybackSequences.

Section EmbedFacts.
Context {V : Type}.
Implicit Types (s : MusicPlayer.t V).

Import MusicPlayer.

(** X10. [embed] returns [None] only for an empty queue, whatever the
    index; on a non-empty queue an index outside [-len, len) raises
    [IndexError], and an index inside describes the entry at that
    position (counted from the end when negative): its thumbnail as
    image and its title linked to its URL. The player is unchanged. *)
Theorem embed_cases (view : TrackView) (color index : Z) s :
  state_of (embed view color index s) = s
  /\ events_of (embed view color index s) = []
  /\ (queues s = [] -> value_of (embed view color index s) = Ok None)
  /\ (queues s <> [] ->
      ~ (- Z.of_nat (List.length (queues s)) <= index
         < Z.of_nat (List.length (queues s))) ->
      value_of (embed view color index s) = Raise IndexError)
  /\ (queues s <> [] ->
      - Z.of_nat (List.length (queues s)) <= index
        < Z.of_nat (List.length (queues s)) ->
      exists q em,
        queues s !! Z.to_nat
          (if index <? 0 then index + Z.of_nat (List.length (queues s))
           else index) = Some q
        /\ value_of (embed view color index s) = Ok (Some em)
        /\ embed_image em = thumbnail q
        /\ embed_description em = make_seek_bar view q
        /\ snd <$> embed_fields em
           = ["[" +:+ title q +:+ "](" +:+ url q +:+ ")"; elapsed view q]).
Proof.
  unfold embed. rewrite bind_gets.
  destruct (queues s) as [|h rest] eqn:Hq.
  { rewrite bool_decide_false by (by intros []).
    repeat split; try done; intros _ Hin; simpl in Hin; lia. }
  rewrite bool_decide_true by done. rewrite <- Hq.
  destruct (py_getitem (queues s) index) as [q|err] eqn:Hget.
  - rewrite bind_lift_Ok. unfold ret, state_of, events_of, value_of. simpl.
    split; [done|]. split; [done|]. split; [congruence|]. split.
    + intros _ Hout. by rewrite py_getitem_out_of_range in Hget.
    + intros _ Hin. exists q. eexists. split; [|by repeat split].
      apply py_getitem_in_range in Hget as [[Hr Hl]|[Hr Hl]].
      * assert ((index <? 0) = false) as -> by (apply Z.ltb_ge; lia). done.
      * assert ((index <? 0) = true) as -> by (apply Z.ltb_lt; lia). done.
  - rewrite bind_lift_Raise. unfold state_of, events_of, value_of. simpl.
    assert (Herr : err = IndexError /\
      ~ (- Z.of_nat (List.length (queues s)) <= index
         < Z.of_nat (List.length (queues s)))).
    { unfold py_getitem in Hget.
      destruct (py_index _ index) as [k|] eqn:Hk.
      - apply py_index_Some in Hk as [Hk _].
        apply lookup_lt_is_Some_2 in Hk as [x Hx]. by rewrite Hx in Hget.
      - apply py_index_None in Hk. by simplify_eq. }
    destruct Herr as [-> Hout].
    split; [done|]. split; [done|]. split; [congruence|]. split; [done|].
    intros _ Hin. by destruct Hout.
Qed.
End EmbedFacts.

(* ================================================================== *)
(** ** The role gate *)

Section RoleGate.
Import RTRole.
Implicit Types (d : data) (table : gmap string entry) (r role : Role)
  (g : Guild) (ctx : Ctx) (nm cmds : string).

Lemma str_inj (a b : Z) : str a = str b -> a = b.
Proof. unfold str. apply pretty_Z_inj. Qed.

Lemma defaultdict_get_present gid d table :
  d !! gid = Some table -> defaultdict_get gid d = (table, d).
Proof. unfold defaultdict_get. by intros ->. Qed.

Lemma defaultdict_get_missing gid d :
  d !! gid = None -> defaultdict_get gid d = (∅, <[gid:=∅]> d).
Proof. unfold defaultdict_get. by intros ->. Qed.

(** The loop of [delete], started on any table [t0] and run over the
    entries of [m]. *)
Lemma delete_named_fold nm (t0 m : gmap string entry) :
  let out :=
    map_fold
      (fun rid e (acc : gmap string entry * bool) =>
         if decide (get_role_name e = nm) then (base.delete rid acc.1, true)
         else acc)
      (t0, false) m in
  (forall rid,
     out.1 !! rid
     = match m !! rid with
       | Some e => if decide (get_role_name e = nm) then None else t0 !! rid
       | None => t0 !! rid
       end)
  /\ (out.2 = true <-> exists rid e, m !! rid = Some e /\ get_role_name e = nm).
Proof.
  cbv zeta. apply (map_fold_weak_ind
    (fun (acc : gmap string entry * bool) (m' : gmap string entry) =>
       (forall rid,
          acc.1 !! rid
          = match m' !! rid with
            | Some e =>
                if decide (get_role_name e = nm) then None else t0 !! rid
            | None => t0 !! rid
            end)
       /\ (acc.2 = true
           <-> exists rid e, m' !! rid = Some e /\ get_role_name e = nm))).
  - split; [intros rid; by rewrite lookup_empty|].
    split; [done|]. intros (rid & e & He & _). by rewrite lookup_empty in He.
  - intros i x m' acc Hi [Hlook Hflag].
    destruct (decide (get_role_name x = nm)) as [Hx|Hx]; simpl.
    + split.
      * intros rid. destruct (decide (rid = i)) as [->|Hne].
        { rewrite lookup_delete_eq, lookup_insert_eq. by rewrite decide_True. }
        rewrite lookup_delete_ne, lookup_insert_ne by done. apply Hlook.
      * split; [|done]. intros _. exists i, x. by rewrite lookup_insert_eq.
    + split.
      * intros rid. destruct (decide (rid = i)) as [->|Hne].
        { rewrite lookup_insert_eq, decide_False by done.
          by rewrite Hlook, Hi. }
        rewrite lookup_insert_ne by done. apply Hlook.
      * rewrite Hflag. split; intros (rid & e & He & Hnm).
        { exists rid, e. split; [|done].
          rewrite lookup_insert_ne; [done|]. intros ->. by rewrite Hi in He. }
        destruct (decide (rid = i)) as [->|Hne].
        { rewrite lookup_insert_eq in He. by simplify_eq. }
        rewrite lookup_insert_ne in He by done. eauto.
Qed.

Lemma delete_named_lookup nm table rid e :
  (delete_named nm table).1 !! rid = Some e
  <-> table !! rid = Some e /\ get_role_name e <> nm.
Proof.
  destruct (delete_named_fold nm table table) as [Hlook _].
  unfold delete_named. rewrite Hlook.
  destruct (table !! rid) as [e'|]; [|split; [done | by intros [? _]]].
  destruct (decide (get_role_name e' = nm)) as [Hnm|Hnm].
  - split; [done|]. intros [[= ->] Hne]. by destruct Hne.
  - split; [by intros [= ->] | by intros [? _]].
Qed.

Lemma delete_named_removed nm table :
  (delete_named nm table).2 = true
  <-> exists rid e, table !! rid = Some e /\ get_role_name e = nm.
Proof. by destruct (delete_named_fold nm table table) as [_ Hflag]. Qed.

Lemma delete_named_none nm table :
  (forall rid e, table !! rid = Some e -> get_role_name e <> nm) ->
  delete_named nm table = (table, false).
Proof.
  intros Hnone.
  destruct (delete_named nm table) as [table' removed] eqn:Hrun.
  assert (table' = table) as ->.
  { apply map_eq. intros rid. apply option_eq. intros e.
    change table' with (table', removed).1. rewrite <- Hrun.
    rewrite delete_named_lookup. split; [by intros [? _]|].
    intros He. split; [done | by apply (Hnone rid)]. }
  f_equal. destruct removed; [|done].
  assert ((delete_named nm table).2 = true) as Hrem by (by rewrite Hrun).
  apply delete_named_removed in Hrem as (rid & e & He & Hnm).
  by destruct (Hnone rid e He).
Qed.

Lemma find_first {A} (f : A -> bool) pre x post :
  (forall y, y ∈ pre -> f y = false) -> f x = true ->
  List.find f (pre ++ x :: post) = Some x.
Proof.
  intros Hpre Hx. induction pre as [|y pre IH]; simpl.
  - by rewrite Hx.
  - rewrite (Hpre y) by left. apply IH. intros z Hz. apply Hpre. by right.
Qed.

Lemma find_none_all {A} (f : A -> bool) l :
  (forall y, y ∈ l -> f y = false) -> List.find f l = None.
Proof.
  intros Hall. induction l as [|y l IH]; simpl; [done|].
  rewrite (Hall y) by left. apply IH. intros z Hz. apply Hall. by right.
Qed.

Lemma find_some_elem {A} (f : A -> bool) l x :
  f x = true -> x ∈ l -> exists y, List.find f l = Some y /\ y ∈ l.
Proof.
  intros Hx Hin. induction l as [|z l IH]; [by apply elem_of_nil in Hin|].
  simpl. destruct (f z) eqn:Hz.
  - exists z. split; [done | left].
  - apply elem_of_cons in Hin as [->|Hin]; [congruence|].
    destruct (IH Hin) as (y & Hy & Hyl). exists y. split; [done | by right].
Qed.

Lemma set_stores gid role cmds d :
  (size (default ∅ (d !! str gid)) <= 50)%nat ->
  set_ gid role cmds d
  = (<[str gid :=
         <[str (role_id role) :=
             {| commands := Some cmds; role_name := Some (name role) |}]>
           (default ∅ (d !! str gid))]> d,
     [Saved (<[str gid :=
         <[str (role_id role) :=
             {| commands := Some cmds; role_name := Some (name role) |}]>
           (default ∅ (d !! str gid))]> d);
      Replied "Ok"]).
Proof.
  intros Hsize. unfold set_.
  destruct (d !! str gid) as [table|] eqn:Hd; simpl in Hsize.
  - rewrite !(defaultdict_get_present _ _ table) by done.
    by rewrite decide_True by done.
  - rewrite defaultdict_get_missing by done.
    rewrite decide_True by (rewrite map_size_empty; lia).
    rewrite (defaultdict_get_present _ _ ∅) by apply lookup_insert_eq.
    simpl. by rewrite insert_insert_eq.
Qed.

(** X11. [rtrole set] stores the role while the guild has at most 50
    roles configured, so a guild can reach 51 entries; from then on
    every call is refused and changes nothing, also for a role that
    is already configured. No table ever passes 51 entries. *)
Theorem set_limit gid role cmds d :
  ((size (default ∅ (d !! str gid)) <= 50)%nat ->
   (set_ gid role cmds d).1 !! str gid
   = Some (<[str (role_id role) :=
               {| commands := Some cmds; role_name := Some (name role) |}]>
             (default ∅ (d !! str gid)))
   /\ (set_ gid role cmds d).2
      = [Saved (set_ gid role cmds d).1; Replied "Ok"])
  /\ ((50 < size (default ∅ (d !! str gid)))%nat ->
      set_ gid role cmds d = (d, [Replied "50個まで設定可能です。"]))
  /\ (size (default ∅ (d !! str gid)) = 50%nat ->
      default ∅ (d !! str gid) !! str (role_id role) = None ->
      exists table, (set_ gid role cmds d).1 !! str gid = Some table
                    /\ size table = 51%nat)
  /\ (bounded d -> bounded (set_ gid role cmds d).1).
Proof.
  split; [|split; [|split]].
  - intros Hsize. rewrite set_stores by done. simpl.
    by rewrite lookup_insert_eq.
  - intros Hsize. unfold set_.
    destruct (d !! str gid) as [table|] eqn:Hd; simpl in Hsize.
    + rewrite (defaultdict_get_present _ _ table) by done.
      by rewrite decide_False by lia.
    + rewrite map_size_empty in Hsize. lia.
  - intros Hsize Hnew. rewrite set_stores by lia. simpl.
    rewrite lookup_insert_eq. eexists. split; [done|].
    rewrite map_size_insert_None by done. by rewrite Hsize.
  - intros Hb.
    destruct (decide (size (default ∅ (d !! str gid)) <= 50)%nat)
      as [Hsize|Hsize].
    + rewrite set_stores by done. simpl. intros g table.
      destruct (decide (g = str gid)) as [->|Hne].
      * rewrite lookup_insert_eq. intros [= <-].
        pose proof (map_size_insert (str (role_id role))
          {| commands := Some cmds; role_name := Some (name role) |}
          (default ∅ (d !! str gid))) as Hins.
        rewrite Hins.
        destruct (default ∅ (d !! str gid) !! str (role_id role));
          unfold id in *; lia.
      * rewrite lookup_insert_ne by done. apply Hb.
    + unfold set_.
      destruct (d !! str gid) as [table|] eqn:Hd; simpl in Hsize.
      * rewrite (defaultdict_get_present _ _ table) by done.
        by rewrite decide_False by done.
      * rewrite map_size_empty in Hsize. lia.
Qed.

Lemma delete_unfold_present gid target d table :
  d !! str gid = Some table -> table <> ∅ ->
  delete gid target d
  = let '(table', removed) :=
      match target with
      | inr nm => delete_named nm table
      | inl r => (base.delete (str (role_id r)) table, false)
      end in
    if removed
    then (<[str gid := table']> d,
          [Saved (<[str gid := table']> d); Replied "Ok"])
    else (<[str gid := table']> d,
          [Replied "その役職は設定されていません。"]).
Proof.
  intros Hd Hne. unfold delete.
  rewrite (defaultdict_get_present _ _ table) by done.
  by rewrite bool_decide_true by done.
Qed.

(** X12. The check passes outside a guild and when no role of the
    guild matches; otherwise only the first matching role in
    [guild.roles] counts: the author passes exactly when holding that
    one, whatever other roles the author has. *)
Theorem has_role_first_match d ctx :
  (guild ctx = None -> has_role d ctx = true)
  /\ (forall g,
        guild ctx = Some g ->
        (forall r, r ∈ roles g ->
           role_matches d (guild_id g) (qualified_name ctx) r = false) ->
        has_role d ctx = true)
  /\ (forall g pre r post,
        guild ctx = Some g ->
        roles g = pre ++ r :: post ->
        (forall r', r' ∈ pre ->
           role_matches d (guild_id g) (qualified_name ctx) r' = false) ->
        role_matches d (guild_id g) (qualified_name ctx) r = true ->
        has_role d ctx = bool_decide (role_id r ∈ author_roles ctx)).
Proof.
  unfold has_role. split; [by intros ->|]. split.
  - intros g -> Hnone. by rewrite find_none_all.
  - intros g pre r post -> -> Hpre Hr. by rewrite find_first.
Qed.

(** X13. After a successful [rtrole set], every command whose name
    occurs in the given text (as a substring) is refused to an author
    who holds none of the guild's roles. An author holding all of the
    guild's roles passes any check. *)
Theorem set_then_gate g role cmds d ctx :
  (size (default ∅ (d !! str (guild_id g))) <= 50)%nat ->
  role ∈ roles g ->
  guild ctx = Some g ->
  is_substring (qualified_name ctx) cmds = true ->
  ((forall r, r ∈ roles g -> role_id r ∉ author_roles ctx) ->
   has_role (set_ (guild_id g) role cmds d).1 ctx = false)
  /\ (forall d',
        (forall r, r ∈ roles g -> role_id r ∈ author_roles ctx) ->
        has_role d' ctx = true).
Proof.
  intros Hsize Hrole Hg Hsub. split.
  - intros Hnone. unfold has_role. rewrite Hg.
    assert (role_matches (set_ (guild_id g) role cmds d).1 (guild_id g)
              (qualified_name ctx) role = true) as Hm.
    { unfold role_matches. rewrite set_stores by done. simpl.
      rewrite !lookup_insert_eq. unfold get_commands. simpl.
      rewrite Hsub. apply orb_true_r. }
    destruct (find_some_elem _ _ _ Hm Hrole) as (r0 & -> & Hr0).
    apply bool_decide_eq_false. by apply Hnone.
  - intros d' Hall. unfold has_role. rewrite Hg.
    destruct (List.find _ (roles g)) as [r0|] eqn:Hfind; [|done].
    apply bool_decide_eq_true. apply Hall.
    apply list_elem_of_In. by apply List.find_some in Hfind as [? _].
Qed.

(** X14. [rtrole delete] with a role name, in a guild that has roles
    configured: exactly the entries with that name are removed. If
    there was one, the table is saved and the answer is [Ok]; if there
    was none, nothing changes and the answer says the role is not
    configured. *)
Theorem delete_by_name gid nm d table :
  d !! str gid = Some table ->
  table <> ∅ ->
  (exists table',
     (delete gid (inr nm) d).1 = <[str gid := table']> d
     /\ forall rid e,
          table' !! rid = Some e
          <-> table !! rid = Some e /\ get_role_name e <> nm)
  /\ ((exists rid e, table !! rid = Some e /\ get_role_name e = nm) ->
      (delete gid (inr nm) d).2
      = [Saved (delete gid (inr nm) d).1; Replied "Ok"])
  /\ ((forall rid e, table !! rid = Some e -> get_role_name e <> nm) ->
      delete gid (inr nm) d
      = (d, [Replied "その役職は設定されていません。"])).
Proof.
  intros Hd Hne. rewrite (delete_unfold_present gid (inr nm) d table) by done.
  split; [|split].
  - exists (delete_named nm table).1. split.
    + by destruct (delete_named nm table) as [table' []].
    + apply delete_named_lookup.
  - intros Hex. apply delete_named_removed in Hex.
    destruct (delete_named nm table) as [table' removed].
    simpl in Hex. by subst.
  - intros Hnone. rewrite delete_named_none by done.
    by rewrite insert_id.
Qed.

(** X15. [rtrole delete] with a role object, in a guild that has
    roles configured: the entry of that role, if there is one, is
    removed from the table in memory and every other entry is kept,
    but nothing is saved and the one answer is that the role is not
    configured, whether or not the role was there. So after a
    successful [rtrole set] the deleted role is still in the data that
    was written last. *)
Theorem delete_by_role_is_not_saved gid role d table :
  d !! str gid = Some table ->
  table <> ∅ ->
  delete gid (inl role) d
  = (<[str gid := base.delete (str (role_id role)) table]> d,
     [Replied "その役職は設定されていません。"])
  /\ (exists table',
        (delete gid (inl role) d).1 !! str gid = Some table'
        /\ table' !! str (role_id role) = None
        /\ forall rid, rid <> str (role_id role) ->
             table' !! rid = table !! rid)
  /\ (forall d', Saved d' ∉ (delete gid (inl role) d).2)
  /\ (forall cmds d0,
        (size (default ∅ (d0 !! str gid)) <= 50)%nat ->
        (exists e,
           default ∅ ((set_ gid role cmds d0).1 !! str gid)
             !! str (role_id role) = Some e)
        /\ (set_ gid role cmds d0).2
           = [Saved (set_ gid role cmds d0).1; Replied "Ok"]
        /\ default ∅
             ((delete gid (inl role) (set_ gid role cmds d0).1).1 !! str gid)
             !! str (role_id role) = None
        /\ (delete gid (inl role) (set_ gid role cmds d0).1).2
           = [Replied "その役職は設定されていません。"]).
Proof.
  intros Hd Hne.
  rewrite (delete_unfold_present gid (inl role) d table) by done.
  split; [done|]. split; [|split].
  - exists (base.delete (str (role_id role)) table). simpl.
    rewrite lookup_insert_eq. split; [done|].
    split; [apply lookup_delete_eq|].
    intros rid Hrid. by rewrite lookup_delete_ne.
  - intros d' Hin. simpl in Hin.
    apply list_elem_of_singleton in Hin. discriminate Hin.
  - intros cmds d0 Hsize. rewrite set_stores by done. simpl.
    rewrite lookup_insert_eq. simpl. rewrite lookup_insert_eq.
    split; [eauto|]. split; [done|].
    erewrite delete_unfold_present;
      [|apply lookup_insert_eq|apply insert_non_empty].
    simpl. rewrite lookup_insert_eq. simpl.
    by rewrite lookup_delete_eq.
Qed.

Lemma find_ext {A} (f f' : A -> bool) l :
  (forall x, f x = f' x) -> List.find f l = List.find f' l.
Proof.
  intros Hext. induction l as [|x l IH]; simpl; [done|].
  by rewrite Hext, IH.
Qed.

(** An empty table for a guild decides nothing. *)
Lemma has_role_empty_table gid d ctx :
  d !! gid = None -> has_role (<[gid:=∅]> d) ctx = has_role d ctx.
Proof.
  intros Hd. unfold has_role. destruct (guild ctx) as [g|]; [|done].
  rewrite (find_ext _ (role_matches d (guild_id g) (qualified_name ctx)));
    [done|].
  intros r. unfold role_matches. f_equal.
  destruct (decide (gid = str (guild_id g))) as [->|Hne].
  - by rewrite lookup_insert_eq, Hd, lookup_empty.
  - by rewrite lookup_insert_ne.
Qed.

(** X16. [rtrole delete] in a guild with nothing configured sends no
    answer at all and saves nothing; for a guild not yet in the data
    the lookup alone leaves an empty table behind, which changes no
    decision of the check. *)
Theorem delete_nothing_configured gid target d :
  (d !! str gid = None ->
   delete gid target d = (<[str gid := ∅]> d, []))
  /\ (d !! str gid = Some ∅ -> delete gid target d = (d, []))
  /\ (d !! str gid = None \/ d !! str gid = Some ∅ ->
      forall ctx, has_role (delete gid target d).1 ctx = has_role d ctx).
Proof.
  assert (Hmissing : d !! str gid = None ->
    delete gid target d = (<[str gid := ∅]> d, [])).
  { intros Hd. unfold delete. rewrite defaultdict_get_missing by done.
    by rewrite bool_decide_false by (by intros []). }
  assert (Hempty : d !! str gid = Some ∅ -> delete gid target d = (d, [])).
  { intros Hd. unfold delete.
    rewrite (defaultdict_get_present _ _ ∅) by done.
    by rewrite bool_decide_false by (by intros []). }
  split; [done|]. split; [done|].
  intros [Hd|Hd] ctx.
  - rewrite Hmissing by done. by apply has_role_empty_table.
  - by rewrite Hempty.
Qed.

(** X17. [rtrole set] followed by [rtrole delete] with the role's
    name gives back the data from before, provided the role was not
    configured and no configured role has the same name. *)
Theorem set_then_delete_by_name gid role cmds d table :
  d !! str gid = Some table ->
  (size table <= 50)%nat ->
  table !! str (role_id role) = None ->
  (forall rid e, table !! rid = Some e -> get_role_name e <> name role) ->
  delete gid (inr (name role)) (set_ gid role cmds d).1
  = (d, [Saved d; Replied "Ok"]).
Proof.
  intros Hd Hsize Hnew Hnames.
  rewrite set_stores by (by rewrite Hd). rewrite Hd. simpl.
  set (e := {| commands := Some cmds; role_name := Some (name role) |}).
  erewrite delete_unfold_present;
    [|apply lookup_insert_eq|apply insert_non_empty].
  destruct (delete_named (name role) (<[str (role_id role):=e]> table))
    as [table' removed] eqn:Hrun.
  assert (table' = table) as ->.
  { apply map_eq. intros rid. apply option_eq. intros e'.
    change table' with (table', removed).1. rewrite <- Hrun.
    rewrite delete_named_lookup.
    destruct (decide (rid = str (role_id role))) as [->|Hne].
    - rewrite lookup_insert_eq, Hnew. split; [|done].
      intros [[= <-] Hnm]. by destruct Hnm.
    - rewrite lookup_insert_ne by done. split; [by intros [? _]|].
      intros He. split; [done|]. by apply (Hnames rid). }
  assert (removed = true) as ->.
  { change removed with (table, removed).2. rewrite <- Hrun.
    apply delete_named_removed. exists (str (role_id role)), e.
    by rewrite lookup_insert_eq. }
  rewrite insert_insert_eq. by rewrite insert_id.
Qed.

(** X18. Neither command touches the table of another guild. *)
Theorem other_guilds_untouched gid gid' role target cmds d :
  gid' <> gid ->
  (set_ gid role cmds d).1 !! str gid' = d !! str gid'
  /\ (delete gid target d).1 !! str gid' = d !! str gid'.
Proof.
  intros Hne.
  assert (str gid <> str gid') as Hstr by (intros H; by apply str_inj in H).
  split.
  - unfold set_.
    destruct (d !! str gid) as [table|] eqn:Hd.
    + rewrite !(defaultdict_get_present _ _ table) by done.
      destruct (decide _); simpl; [|done]. by rewrite lookup_insert_ne.
    + rewrite defaultdict_get_missing by done.
      destruct (decide _); simpl.
      * rewrite (defaultdict_get_present _ _ ∅) by apply lookup_insert_eq.
        simpl. by rewrite !lookup_insert_ne.
      * by rewrite lookup_insert_ne.
  - unfold delete.
    destruct (d !! str gid) as [table|] eqn:Hd.
    + rewrite (defaultdict_get_present _ _ table) by done.
      destruct (bool_decide _); [|done].
      destruct (match target with inl _ => _ | inr _ => _ end) as [table' []];
        simpl; by rewrite lookup_insert_ne.
    + rewrite defaultdict_get_missing by done.
      rewrite bool_decide_false by (by intros []). simpl.
      by rewrite lookup_insert_ne.
Qed.
End RoleGate.

(* ================================================================== *)
(** ** The SQL helper: statements and rows *)

Lemma str_app_cons x a b : String x a +:+ b = String x (a +:+ b).
Proof. reflexivity. Qed.

Lemma str_app_nil_l a : "" +:+ a = a.
Proof. reflexivity. Qed.

Lemma str_length_app a b :
  String.length (a +:+ b) = (String.length a + String.length b)%nat.
Proof.
  induction a as [|x a IH]; [done|].
  rewrite str_app_cons. simpl. by rewrite IH.
Qed.

Lemma str_app_assoc a b c : (a +:+ b) +:+ c = a +:+ (b +:+ c).
Proof.
  induction a as [|x a IH]; [done|].
  rewrite !str_app_cons. by rewrite IH.
Qed.

Lemma str_app_nil_r a : a +:+ "" = a.
Proof.
  induction a as [|x a IH]; [done|].
  rewrite str_app_cons. by rewrite IH.
Qed.

Lemma str_take_app a b : Cursor.str_take (String.length a) (a +:+ b) = a.
Proof.
  induction a as [|x a IH]; [by destruct b|].
  rewrite str_app_cons. simpl. by rewrite IH.
Qed.

Lemma drop_last_app a b : Cursor.drop_last (String.length b) (a +:+ b) = a.
Proof.
  unfold Cursor.drop_last. rewrite str_length_app.
  replace (String.length a + String.length b - String.length b)%nat
    with (String.length a) by lia.
  apply str_take_app.
Qed.

(** Texts glued with [sfx] after each one are the texts joined by
    [sfx], with one more [sfx] at the end. *)
Lemma concat_suffix sfx (keys : list string) :
  keys <> [] ->
  String.concat "" ((fun k => k +:+ sfx) <$> keys)
  = String.concat sfx keys +:+ sfx.
Proof.
  induction keys as [|k [|k' ks] IH]; intros Hne; [done | |].
  - reflexivity.
  - change (String.concat "" ((fun k => k +:+ sfx) <$> k :: k' :: ks))
      with ((k +:+ sfx)
            +:+ String.concat "" ((fun k => k +:+ sfx) <$> k' :: ks)).
    rewrite IH by done.
    change (String.concat sfx (k :: k' :: ks))
      with (k +:+ sfx +:+ String.concat sfx (k' :: ks)).
    by rewrite !str_app_assoc.
Qed.

Section Statements.
Context {J : Type} `{EqDecision J}.
Variable dumps : J -> string.
Variable loads : string -> result J.
Implicit Types (values targets : list (string * Cursor.value J))
  (table : string) (commit : bool).

Import Cursor.

Lemma get_column_args_unfold values fmt :
  _get_column_args values fmt
  = (String.concat "" ((fun item => py_format1 fmt item.1) <$> values),
     snd <$> values).
Proof.
  unfold _get_column_args.
  assert (Hgen : forall text args,
    fold_left
      (fun (acc : string * list (value J)) (item : string * value J) =>
         (acc.1 +:+ py_format1 fmt item.1, acc.2 ++ [item.2]))
      values (text, args)
    = (text +:+ String.concat ""
                  ((fun item => py_format1 fmt item.1) <$> values),
       args ++ (snd <$> values))).
  { induction values as [|item values IH]; intros text args; simpl.
    - by rewrite str_app_nil_r, app_nil_r.
    - rewrite IH. simpl. rewrite str_app_assoc, <- app_assoc. simpl.
      f_equal. f_equal.
      destruct values; simpl; by rewrite ?str_app_nil_r. }
  by rewrite Hgen.
Qed.

Lemma column_list values :
  drop_last 2 (_get_column_args values "{}, ").1
  = String.concat ", " (fst <$> values).
Proof.
  rewrite get_column_args_unfold. simpl fst.
  destruct values as [|item values]; [done|].
  replace ((fun item0 : string * value J => py_format1 "{}, " item0.1)
             <$> item :: values)
    with ((fun k => k +:+ ", ") <$> (fst <$> item :: values))
    by (by rewrite <- list_fmap_compose).
  rewrite concat_suffix by done.
  apply (drop_last_app _ ", ").
Qed.

Lemma condition_text values :
  drop_last 4 (_get_column_args values "{} = %s AND").1
  = joined_conditions (fst <$> values).
Proof.
  rewrite get_column_args_unfold. simpl fst.
  destruct values as [|item values]; [done|].
  replace ((fun item0 : string * value J => py_format1 "{} = %s AND" item0.1)
             <$> item :: values)
    with ((fun k => k +:+ " = %s AND") <$> (fst <$> item :: values))
    by (by rewrite <- list_fmap_compose).
  rewrite concat_suffix by done.
  unfold joined_conditions. simpl fmap.
  change " = %s AND" with (" = %s" +:+ " AND") at 2.
  rewrite <- str_app_assoc.
  apply (drop_last_app _ " AND").
Qed.

Lemma placeholders n :
  drop_last 2 (str_repeat "%s, " n) = String.concat ", " (replicate n "%s").
Proof.
  destruct n as [|n]; [done|].
  assert (Hrep : str_repeat "%s, " (S n)
    = String.concat "" ((fun k => k +:+ ", ") <$> replicate (S n) "%s")).
  { generalize (S n). intros m. induction m as [|m IH]; [done|].
    simpl str_repeat. rewrite IH.
    destruct m; simpl; by rewrite ?str_app_nil_r. }
  rewrite Hrep, concat_suffix by done.
  apply (drop_last_app _ ", ").
Qed.

(** X19. [insert_data] sends one statement,
    [INSERT INTO table (c1, ..., cn) VALUES (%s, ..., %s)], with the
    column names in the order of the dict, one placeholder per column
    and the values in the same order; a dict value is sent as its
    JSON text, every other value as it is; [commit] follows exactly
    when asked for. *)
Theorem insert_data_statement table values commit :
  insert_data dumps table values commit
  = Execute
      ("INSERT INTO " +:+ table +:+ " ("
       +:+ String.concat ", " (fst <$> values) +:+ ") VALUES ("
       +:+ String.concat ", " (replicate (List.length values) "%s") +:+ ")")
      (Some ((fun item => match item.2 with
                          | VDict j => VStr (dumps j)
                          | v => v
                          end) <$> values))
    :: (if commit then [Commit] else []).
Proof.
  unfold insert_data.
  pose proof (column_list values) as Hcols.
  pose proof (get_column_args_unfold values "{}, ") as Hargs.
  destruct (_get_column_args values "{}, ") as [conditions args].
  simpl in Hcols. injection Hargs as _ ->.
  rewrite Hcols, placeholders, length_fmap.
  rewrite <- list_fmap_compose. unfold commit_events. f_equal. f_equal.
  f_equal. apply list_fmap_ext. intros i [k v] _. by destruct v.
Qed.

(** X20. [update_data] and [delete] write each list of conditions as
    the column names followed by [" = %s"] with ["AND"] in between,
    and no space between that [AND] and the next column name; the
    [SET] list of [update_data] is written the same way, and its
    values are sent unchanged, before those of the conditions. With no
    conditions, the text after [WHERE] is empty. *)
Theorem conditions_glued_with_AND table values targets commit :
  update_data table values targets commit
  = Execute
      ("UPDATE " +:+ table +:+ " SET " +:+ joined_conditions (fst <$> values)
       +:+ " WHERE " +:+ joined_conditions (fst <$> targets))
      (Some ((snd <$> values) ++ (snd <$> targets)))
    :: (if commit then [Commit] else [])
  /\ delete table targets commit
     = Execute
         ("DELETE FROM " +:+ table +:+ " WHERE "
          +:+ joined_conditions (fst <$> targets))
         (Some (snd <$> targets))
       :: (if commit then [Commit] else [])
  /\ (forall a b more,
        joined_conditions (a :: b :: more)
        = a +:+ " = %s AND" +:+ joined_conditions (b :: more))
  /\ joined_conditions [] = "".
Proof.
  split; [|split; [|split]].
  - unfold update_data.
    pose proof (condition_text values) as Hv.
    pose proof (get_column_args_unfold values "{} = %s AND") as Hva.
    destruct (_get_column_args values "{} = %s AND") as [vtext vargs].
    pose proof (condition_text targets) as Ht.
    pose proof (get_column_args_unfold targets "{} = %s AND") as Hta.
    destruct (_get_column_args targets "{} = %s AND") as [ttext targs].
    simpl in Hv, Ht. injection Hva as _ ->. injection Hta as _ ->.
    by rewrite Hv, Ht.
  - unfold delete.
    pose proof (condition_text targets) as Ht.
    pose proof (get_column_args_unfold targets "{} = %s AND") as Hta.
    destruct (_get_column_args targets "{} = %s AND") as [ttext targs].
    simpl in Ht. injection Hta as _ ->. by rewrite Ht.
  - intros a b more. unfold joined_conditions.
    change (String.concat " = %s AND" (a :: b :: more))
      with (a +:+ " = %s AND" +:+ String.concat " = %s AND" (b :: more)).
    by rewrite !str_app_assoc.
  - done.
Qed.
End Statements.

Section Rows.
Context {J : Type} `{EqDecision J}.
Variable loads : string -> result J.
Variable db : string -> option (list (Cursor.value J)) -> list (list Cursor.cell).
Implicit Types (targets : list (string * Cursor.value J)) (table : string)
  (row : list Cursor.cell).

Import Cursor.

(** The statement, the bound values and the rows the server finds for
    one call of [get_datas]. *)
Lemma get_datas_unfold table targets _fetchall :
  exists query args,
    get_datas loads db table targets _fetchall
    = ([Execute query args],
       if _fetchall then
         match decode_row loads (head (db query args)) with
         | Ok datas => Ok [datas]
         | Raise err => Raise err
         end
       else
         match db query args with
         | [] => Ok [[]]
         | row :: _ =>
             match decode_cells loads row with
             | Ok datas => Ok [datas]
             | Raise err => Raise err
             end
         end).
Proof.
  unfold get_datas.
  destruct (if bool_decide (targets <> []) then _ else _) as [conditions args].
  exists ("SELECT * FROM " +:+ table +:+ conditions), args.
  f_equal. destruct _fetchall; simpl negb; cbv iota.
  - rewrite bool_decide_true by done. simpl.
    by destruct (decode_row loads _).
  - destruct (db _ args) as [|row rows].
    + by rewrite bool_decide_false by (by intros []).
    + rewrite bool_decide_true by done. simpl.
      by destruct (decode_cells loads row).
Qed.



(** X22. [get_data] decodes the first row the server finds and
    ignores the others; on an empty result it returns [[]] and
    [exists] returns [False]. When the first row decodes, [exists]
    tells whether it has a column. *)
Theorem get_data_first_row table targets :
  ((forall query args, db query args = []) ->
   (get_data loads db table targets).2 = Ok []
   /\ (exists_ loads db table targets).2 = Ok false)
  /\ (forall row more,
        (forall query args, db query args = row :: more) ->
        (get_data loads db table targets).2 = decode_cells loads row
        /\ (forall datas,
              decode_cells loads row = Ok datas ->
              (exists_ loads db table targets).2
              = Ok (bool_decide (datas <> [])))).
Proof.
  unfold exists_, get_data. split.
  - intros Hempty.
    destruct (get_datas_unfold table targets false) as (q & a & ->).
    by rewrite Hempty.
  - intros row more Hrows.
    destruct (get_datas_unfold table targets false) as (q & a & ->).
    rewrite Hrows. simpl. split.
    + by destruct (decode_cells loads row).
    + by intros datas ->.
Qed.

(** X23. How a row is decoded: a text that starts with an opening
    brace and ends with a closing one is handed to [ujson.loads] and
    comes back as a dict (or [loads] raises); any other non-empty text
    comes back as it is; a row with an empty text, a number or a NULL
    in it raises, so [get_data] works only on rows of non-empty
    texts. *)
Theorem decode_cells_cases row :
  ((exists data, data ∈ row /\ (data = CStr "" \/ data = CNull
                                \/ exists n, data = CInt n)) ->
   exists err, decode_cells loads row = Raise err)
  /\ (forall texts,
        row = CStr <$> texts ->
        (forall s, s ∈ texts ->
           s <> "" /\ (str_first s <> Some "{"%char
                       \/ str_last s <> Some "}"%char)) ->
        decode_cells loads row = Ok (VStr <$> texts))
  /\ (forall s j,
        str_first s = Some "{"%char -> str_last s = Some "}"%char ->
        loads s = Ok j ->
        decode_cells loads [CStr s] = Ok [VDict j]).
Proof.
  split; [|split].
  - intros (data & Hin & Hbad). induction row as [|c row IH].
    { by apply elem_of_nil in Hin. }
    simpl. apply elem_of_cons in Hin as [<-|Hin].
    + destruct Hbad as [->|[->|[n ->]]]; simpl; eauto.
    + destruct (decode_cell loads c) as [v|err]; [|eauto].
      destruct (IH Hin) as [err ->]. eauto.
  - intros texts -> Htexts. induction texts as [|s texts IH]; [done|].
    change (decode_cells loads (CStr <$> s :: texts))
      with (match decode_cell loads (CStr s) with
            | Ok v =>
                match decode_cells loads (CStr <$> texts) with
                | Ok vs => Ok (v :: vs)
                | Raise err => Raise err
                end
            | Raise err => Raise err
            end).
    destruct (Htexts s) as [Hne Hshape]; [left|].
    assert (decode_cell loads (CStr s) = Ok (VStr s)) as ->.
    { unfold decode_cell.
      destruct s as [|c0 s']; [done|]. simpl str_first.
      destruct (str_last (String c0 s')) as [c1|] eqn:Hlast.
      - destruct (Ascii.eqb_spec c0 "{"), (Ascii.eqb_spec c1 "}");
          simpl; try done.
        subst. by destruct Hshape.
      - exfalso. clear -Hlast. revert c0 Hlast.
        induction s' as [|c s' IHs]; intros c0; simpl; [done|].
        apply IHs. }
    rewrite IH; [done|]. intros s0 Hs0. apply Htexts. by right.
  - intros s j Hfirst Hlast Hloads. simpl. unfold decode_cell.
    by rewrite Hfirst, Hlast, Hloads.
Qed.
End Rows.

(* ================================================================== *)
(** ** Concrete runs of the further properties *)

Lemma add_then_read_remove_witness :
  MusicPlayer.length two_tracks <> MusicPlayer.MAX
  /\ MusicPlayer.read_queue (-1)
       (state_of (MusicPlayer.add_queue song3 two_tracks))
     = (Ok song3, state_of (MusicPlayer.add_queue song3 two_tracks), [])
  /\ MusicPlayer.remove_queue (inl (-1))
       (state_of (MusicPlayer.add_queue song3 two_tracks))
     = (Ok tt, two_tracks, []).
Proof.
  assert (H : MusicPlayer.length two_tracks <> MusicPlayer.MAX)
    by (unfold MusicPlayer.MAX; simpl; lia).
  split; [exact H|].
  destruct (add_then_read_remove song3 two_tracks H) as (Hread & Hdel & _).
  split; [exact Hread | exact Hdel].
Defined.

Lemma run_ops_consistent_witness :
  length_consistent
    (run_ops resolve_all
       [OpAddQueue song1; OpAddQueue song2; OpAddQueue song3;
        OpShuffle [0%nat]; OpPlay; OpRemoveQueue (inr song3);
        OpSkip 5%float; OpAfter None; OpPause; OpLoop]
       (MusicPlayer.init Idle)).
Proof.
  apply (run_ops_consistent resolve_all
           [OpAddQueue song1; OpAddQueue song2; OpAddQueue song3;
            OpShuffle [0%nat]; OpPlay; OpRemoveQueue (inr song3);
            OpSkip 5%float; OpAfter None; OpPause; OpLoop] Idle).
  reflexivity.
Defined.

Lemma play_resets_idle_clock_witness :
  MusicPlayer.before (state_of (MusicPlayer.play resolve_none skipped_at_1000))
  = Num 0%float
  /\ value_of (MusicPlayer.check_timeout 5000%float 300
       (state_of (MusicPlayer.play resolve_none skipped_at_1000)))
     = Ok false.
Proof.
  apply (proj1 (play_resets_idle_clock resolve_none skipped_at_1000
                  5000%float 300)); [discriminate | reflexivity].
Defined.

Lemma skip_last_track_starts_idle_clock_witness :
  exact_int 300
  /\ value_of (MusicPlayer.check_timeout 1300.5%float 300
       (state_of (MusicPlayer._after resolve_all None
          (state_of (MusicPlayer.skip 1000%float
             (MusicPlayer.mk (Playing "https://example.org/1" after_callback)
                [song1] 1 false (Num 0%float)))))))
     = Ok true.
Proof.
  assert (H300 : exact_int 300) by (unfold exact_int; lia).
  split; [exact H300|].
  exact (proj2 (skip_last_track_starts_idle_clock resolve_all None
    (MusicPlayer.mk (Playing "https://example.org/1" after_callback)
       [song1] 1 false (Num 0%float))
    song1 1000%float 1300.5%float 300 eq_refl eq_refl eq_refl) H300).
Defined.

Lemma looping_retry_never_ends_witness :
  run_loop resolve_none 3 [AfterTask None] (three_tracks true)
  = (three_tracks true,
     (Closed song1 :: failed_attempt song1)
       ++ concat (replicate 2 (Closed song1 :: failed_attempt song1)),
     [AfterTask None]).
Proof.
  exact (looping_retry_never_ends resolve_none 2 None (three_tracks true)
           song1 [song2; song3] (OtherError "DownloadError")
           eq_refl eq_refl eq_refl eq_refl eq_refl).
Defined.

Lemma retry_skips_failed_track_witness :
  MusicPlayer.queues
    (run_loop resolve_but_song2 2 [AfterTask None] (three_tracks false)).1.1
  = [song3]
  /\ MusicPlayer.length
       (run_loop resolve_but_song2 2 [AfterTask None] (three_tracks false)).1.1
     = 1.
Proof.
  destruct (@retry_skips_failed_track string sink sink_voice_client
              resolve_but_song2 None
              (three_tracks false) song1 song2 [song3]
              (OtherError "DownloadError")
              eq_refl eq_refl eq_refl eq_refl eq_refl)
    as (_ & Hq & Hlen & _).
  split; [exact Hq | exact Hlen].
Defined.

Lemma remove_playing_then_callback_witness :
  MusicPlayer.queues
    (state_of (MusicPlayer._after resolve_all None
       (state_of (MusicPlayer.remove_queue (inl 0) (three_tracks false)))))
  = [song3].
Proof.
  exact (proj1 (proj2 (remove_playing_then_callback resolve_all None
    (three_tracks false) song1 song2 [song3] eq_refl eq_refl))).
Defined.

Lemma embed_cases_witness :
  value_of (embed seek_view 0 5 (MusicPlayer.init Idle)) = Ok None
  /\ value_of (embed seek_view 0 2 two_tracks) = Raise IndexError.
Proof.
  split.
  - exact (proj1 (proj2 (proj2
      (embed_cases seek_view 0 5 (MusicPlayer.init Idle)))) eq_refl).
  - apply (proj1 (proj2 (proj2 (proj2
      (embed_cases seek_view 0 2 two_tracks))))); [discriminate|].
    simpl. lia.
Defined.

Section RoleGateRuns.
Import RTRole.

Lemma set_limit_witness :
  (set_ 10 mods "ping info" helpers_only).2
  = [Saved (set_ 10 mods "ping info" helpers_only).1; Replied "Ok"].
Proof.
  apply (proj1 (set_limit 10 mods "ping info" helpers_only)).
  vm_compute. lia.
Defined.

Lemma has_role_first_match_witness :
  has_role (set_ 10 mods "ping" (set_ 10 helpers "ping" ∅).1).1
    {| guild := Some guild10; author_roles := [7]; qualified_name := "ping" |}
  = bool_decide (role_id helpers ∈ [7]).
Proof.
  apply (proj2 (proj2 (has_role_first_match
    (set_ 10 mods "ping" (set_ 10 helpers "ping" ∅).1).1
    {| guild := Some guild10; author_roles := [7]; qualified_name := "ping" |}))
    guild10 [] helpers [mods] eq_refl eq_refl).
  - intros r Hr. by apply elem_of_nil in Hr.
  - vm_compute. reflexivity.
Defined.

Lemma set_then_gate_witness :
  has_role (set_ (guild_id guild10) mods "ping info" ∅).1 outsider_ping = false.
Proof.
  assert (Hsize : (size (default (∅ : gmap string entry)
                     ((∅ : data) !! str (guild_id guild10))) <= 50)%nat)
    by (vm_compute; lia).
  assert (Hrole : mods ∈ roles guild10)
    by (apply list_elem_of_In; simpl; auto).
  apply (proj1 (set_then_gate guild10 mods "ping info" ∅ outsider_ping
                  Hsize Hrole eq_refl eq_refl)).
  intros r _. apply not_elem_of_nil.
Defined.

Lemma delete_by_name_witness :
  (delete 10 (inr "helpers") helpers_only).2
  = [Saved (delete 10 (inr "helpers") helpers_only).1; Replied "Ok"].
Proof.
  assert (Hd : helpers_only !! str 10 = Some helpers_table)
    by (vm_compute; reflexivity).
  assert (Hne : helpers_table <> ∅) by apply insert_non_empty.
  apply (proj1 (proj2 (delete_by_name 10 "helpers" helpers_only helpers_table
                         Hd Hne))).
  exists "8", helpers_entry. split; [vm_compute; reflexivity | reflexivity].
Defined.

Lemma delete_by_role_is_not_saved_witness :
  helpers_only !! str 10 = Some helpers_table
  /\ helpers_table <> ∅
  /\ delete 10 (inl helpers) helpers_only
     = (<[str 10 := base.delete (str (role_id helpers)) helpers_table]>
          helpers_only,
        [Replied "その役職は設定されていません。"])
  /\ delete 10 (inl mods) helpers_only
     = (<[str 10 := base.delete (str (role_id mods)) helpers_table]>
          helpers_only,
        [Replied "その役職は設定されていません。"]).
Proof.
  assert (Hd : helpers_only !! str 10 = Some helpers_table)
    by (vm_compute; reflexivity).
  assert (Hne : helpers_table <> ∅) by apply insert_non_empty.
  split; [exact Hd|]. split; [exact Hne|]. split.
  - exact (proj1 (delete_by_role_is_not_saved 10 helpers helpers_only
                    helpers_table Hd Hne)).
  - exact (proj1 (delete_by_role_is_not_saved 10 mods helpers_only
                    helpers_table Hd Hne)).
Defined.

Lemma delete_nothing_configured_witness :
  delete 10 (inr "mods") ∅ = (<[str 10 := ∅]> ∅, []).
Proof.
  assert (Hd : (∅ : data) !! str 10 = None) by apply lookup_empty.
  exact (proj1 (delete_nothing_configured 10 (inr "mods") ∅) Hd).
Defined.

Lemma set_then_delete_by_name_witness :
  delete 10 (inr (name mods)) (set_ 10 mods "ping info" helpers_only).1
  = (helpers_only, [Saved helpers_only; Replied "Ok"]).
Proof.
  apply (set_then_delete_by_name 10 mods "ping info" helpers_only helpers_table).
  - vm_compute. reflexivity.
  - vm_compute. lia.
  - vm_compute. reflexivity.
  - intros rid e He. unfold helpers_table in He.
    apply lookup_insert_Some in He as [[_ <-]|[_ He]]; [discriminate|].
    by rewrite lookup_empty in He.
Defined.

Lemma other_guilds_untouched_witness :
  (set_ 10 mods "ping info" helpers_only).1 !! str 11 = helpers_only !! str 11
  /\ (delete 10 (inr "helpers") helpers_only).1 !! str 11
     = helpers_only !! str 11.
Proof.
  apply (other_guilds_untouched 10 11 mods (inr "helpers") "ping info"
           helpers_only).
  discriminate.
Defined.
End RoleGateRuns.

Section CursorRuns.
Import Cursor.


Lemma get_data_first_row_witness :
  (get_data text_loads friends_db "friends" [("name", VStr "Takkun")]).2
  = Ok [VStr "Takkun"; VDict "{}"]
  /\ (exists_ text_loads friends_db "friends" [("name", VStr "Takkun")]).2
     = Ok true.
Proof.
  destruct (proj2 (get_data_first_row text_loads friends_db "friends"
                     [("name", VStr "Takkun")])
              [CStr "Takkun"; CStr "{}"] [[CStr "tasuren"; CStr "-"]]
              ltac:(reflexivity)) as [Hrow Hex].
  split; [exact Hrow|].
  exact (Hex [VStr "Takkun"; VDict "{}"] eq_refl).
Defined.

Lemma decode_cells_cases_witness :
  (exists err, decode_cells text_loads [CStr "Takkun"; CInt 3] = Raise err)
  /\ decode_cells text_loads (CStr <$> ["Takkun"; "-"])
     = Ok (VStr <$> ["Takkun"; "-"]).
Proof.
  destruct (decode_cells_cases text_loads [CStr "Takkun"; CInt 3])
    as (Hbad & _).
  destruct (decode_cells_cases text_loads (CStr <$> ["Takkun"; "-"]))
    as (_ & Htexts & _).
  split.
  - apply Hbad. exists (CInt 3). split; [|eauto].
    apply list_elem_of_In. simpl. auto.
  - apply (Htexts ["Takkun"; "-"] eq_refl).
    intros s Hs. apply list_elem_of_In in Hs. simpl in Hs.
    destruct Hs as [<-|[<-|[]]]; (split; [discriminate | left; discriminate]).
Defined.
End CursorRuns.
